(** * Incremental search of sublime-jove (src/jove.py, class ISearchInfo)

    A shallow embedding of the incremental-search engine: the stack of
    [StackItem] nodes, the python lists the nodes share or copy, and the
    part of the host editor the engine writes to (selection, highlighted
    regions, status line, mark ring, input panel). *)

From Stdlib Require Import ZArith String Ascii List Bool Lia DecimalString.
From stdpp Require Import base option gmap strings list.
Import ListNotations.

Local Open Scope Z_scope.

(** ** Python values used by the engine *)

(** Exceptions the modelled code can raise. *)
Inductive exn := IndexError.

Inductive result (A : Type) :=
| Ok (x : A)
| Raise (e : exn).
Arguments Ok {A} x.
Arguments Raise {A} e.

#[global] Instance result_ret : MRet result := fun A x => Ok x.
#[global] Instance result_bind : MBind result :=
  fun A B f m => match m with Ok x => f x | Raise e => Raise e end.

(** Truth value of a python list and of a python string. *)
Definition truthy {A} (l : list A) : bool :=
  match l with [] => false | _ :: _ => true end.

Definition truthy_str (s : string) : bool :=
  match s with EmptyString => false | String _ _ => true end.

Definition len {A} (l : list A) : Z := Z.of_nat (List.length l).
Definition str_len (s : string) : Z := Z.of_nat (String.length s).

(** [l[i]] with python's negative indices and its IndexError. *)
Definition getitem {A} (l : list A) (i : Z) : result A :=
  let j := if i <? 0 then i + len l else i in
  if j <? 0 then Raise IndexError
  else match l !! Z.to_nat j with
       | Some x => Ok x
       | None => Raise IndexError
       end.

(** sublime.Region(a, b): [begin] is the smaller end, [end_] the larger. *)
Module Region.
Record t := mk { a : Z; b : Z }.
Definition begin (r : t) : Z := Z.min (a r) (b r).
Definition end_ (r : t) : Z := Z.max (a r) (b r).
End Region.

(** ** The python heap of list objects

    [StackItem.selected] is a python list that [__init__] appends to and
    [step] copies, so lists are kept in a store and nodes hold references.
    The [regions] list of a node is shared between nodes as well, but no
    code path writes to it, so it is kept by value. *)
Abbreviation Heap := (gmap nat (list Region.t)).

Definition deref (h : Heap) (l : nat) : list Region.t := default [] (h !! l).

(** The literal [[]]: a new list object. *)
Definition new_list (h : Heap) : nat * Heap :=
  let l := fresh (dom h) in (l, <[l := []]> h).

(** [copy(l)]: a new list object with the same elements. *)
Definition copy (l : nat) (h : Heap) : nat * Heap :=
  let l' := fresh (dom h) in (l', <[l' := deref h l]> h).

(** [l.append(x)] *)
Definition append (l : nat) (x : Region.t) (h : Heap) : Heap :=
  <[l := deref h l ++ [x]]> h.

(** [del(l[-1])] *)
Definition del_last (l : nat) (h : Heap) : result Heap :=
  match deref h l with
  | [] => Raise IndexError
  | _ :: _ => Ok (<[l := removelast (deref h l)]> h)
  end.

(** ** ISearchInfo.StackItem *)
Module StackItem.

#[warnings="-register-all"] Inductive t := mk {
  prev : option t;
  search : string;
  regions : list Region.t;
  selected : nat;
  current_index : Z;
  forward : bool;
  try_wrapped : bool;
  wrapped : bool
}.

Definition set_prev (p : option t) (self : t) : t :=
  mk p (search self) (regions self) (selected self) (current_index self)
     (forward self) (try_wrapped self) (wrapped self).

Definition set_try_wrapped (v : bool) (self : t) : t :=
  mk (prev self) (search self) (regions self) (selected self)
     (current_index self) (forward self) v (wrapped self).

(** __init__ (lines 947-958) *)
Definition init (search : string) (regions : list Region.t) (selected : nat)
    (current_index : Z) (forward wrapped : bool) (h : Heap)
  : result (t * Heap) :=
  let self := mk None search regions selected current_index forward false wrapped in
  if (0 <=? current_index) && truthy regions then
    r ← getitem regions current_index;
    Ok (self, append selected r h)
  else Ok (self, h).

(** get_point (lines 960-964); [None] is python's None. *)
Definition get_point (self : t) : result (option Z) :=
  if 0 <=? current_index self then
    r ← getitem (regions self) (current_index self);
    Ok (Some (if forward self then Region.begin r else Region.end_ r))
  else Ok None.

(** The tail of [step] (lines 989-992). *)
Definition step_new (self : t) (index : Z) (forward keep wrapped : bool)
    (h : Heap) : result (t * Heap) :=
  let '(selected, h) := copy (selected self) h in
  h ← (if negb keep && (0 <? len (deref h selected))
       then del_last selected h else Ok h);
  init (search self) (regions self) selected index forward wrapped h.

(** step (lines 972-992).  The method writes [try_wrapped] of the node it
    is called on, so the node is returned next to the new node (None when
    the method returns None). *)
Definition step (self : t) (forward keep : bool) (h : Heap)
  : result (t * option t * Heap) :=
  let index := current_index self in
  let matches := len (regions self) in
  if truthy (regions self)
     && ((index <? 0) || ((index =? 0) && negb forward)
         || ((index =? matches - 1) && forward)) then
    let index := if forward then 0 else matches - 1 in
    if try_wrapped self || negb (truthy (regions self)) then
      let self := set_try_wrapped false self in
      '(new, h) ← step_new self index forward keep true h;
      Ok (self, Some new, h)
    else Ok (set_try_wrapped true self, None, h)
  else if (forward && (index <? matches - 1))
          || (negb forward && (0 <? index)) then
    let index := if forward then index + 1 else index - 1 in
    '(new, h) ← step_new self index forward keep (wrapped self) h;
    Ok (self, Some new, h)
  else Ok (self, None, h).

(** Number of nodes below a node.  Two nodes of one chain are the same
    object exactly when they have the same depth. *)
Fixpoint depth (self : t) : nat :=
  match prev self with
  | Some p => S (depth p)
  | None => O
  end.

End StackItem.

(** ** Text

    Characters are the 256 code points of [ascii] (Latin-1). *)

(** The character class [[A-Z]] of the two [re.search] calls. *)
Definition is_AZ (c : ascii) : bool :=
  (65 <=? Z.of_nat (nat_of_ascii c)) && (Z.of_nat (nat_of_ascii c) <=? 90).

(** [re.search(r'[A-Z]', s) is not None] *)
Definition re_search_AZ (s : string) : bool :=
  existsb is_AZ (list_ascii_of_string s).

(** [ch.lower()] on one character of the Latin-1 range. *)
Definition lower (c : ascii) : ascii :=
  let n := Z.of_nat (nat_of_ascii c) in
  if ((65 <=? n) && (n <=? 90))
     || ((192 <=? n) && (n <=? 222) && negb (n =? 215))
  then ascii_of_nat (Z.to_nat (n + 32)) else c.

(** [ch in s] for a one-character [ch]. *)
Definition char_in (c : ascii) (s : string) : bool :=
  existsb (Ascii.eqb c) (list_ascii_of_string s).

Definition str_of_char (c : ascii) : string := String c EmptyString.

(** [%d] of a length. *)
Definition str_of_len {A} (l : list A) : string :=
  NilZero.string_of_uint (Nat.to_uint (List.length l)).

(** ** The host editor *)

(** What the host reports back when the input panel is hidden. *)
Inductive PanelEvent := NoCallback | CallsOnDone | CallsOnCancel.

(** The host services the engine reads: the flag constants of the
    [sublime] module, the buffer ([view.find_all], [view.substr] at one
    point, [view.size]), the word-separator setting, and which callback of
    [show_input_panel] the command [hide_panel] triggers. *)
Class Host := {
  LITERAL : Z;
  IGNORECASE : Z;
  find_all : string -> Z -> list Region.t;
  substr : Z -> ascii;
  size : Z;
  jove_word_separators : string;
  hide_panel_event : PanelEvent
}.

(** An argument of [CmdHelper.ensure_visible]. *)
Inductive target := AtPoint (p : Z) | AtRegion (r : Region.t).

(** What the engine writes to the host view. [sel] is the sequence of
    regions handed to [view.sel()] since its last [clear()]; [shown] lists
    the [ensure_visible] requests and [mark_ring] the positions given to
    [mark_ring.set], latest first. *)
Module View.
Record t := mk {
  sel : list Region.t;
  marked : gmap string (list Region.t);
  status : string;
  mark_ring : list Z;
  shown : list target
}.

Definition sel_clear (v : t) : t :=
  mk [] (marked v) (status v) (mark_ring v) (shown v).
Definition sel_add (r : Region.t) (v : t) : t :=
  mk (sel v ++ [r]) (marked v) (status v) (mark_ring v) (shown v).
Definition sel_add_all (rs : list Region.t) (v : t) : t :=
  mk (sel v ++ rs) (marked v) (status v) (mark_ring v) (shown v).
Definition add_regions (key : string) (rs : list Region.t) (v : t) : t :=
  mk (sel v) (<[key := rs]> (marked v)) (status v) (mark_ring v) (shown v).
Definition erase_regions (key : string) (v : t) : t :=
  mk (sel v) (delete key (marked v)) (status v) (mark_ring v) (shown v).

(** CmdHelper.set_status (line 261) *)
Definition set_status (msg : string) (v : t) : t :=
  mk (sel v) (marked v) msg (mark_ring v) (shown v).

(** CmdHelper.get_point (line 268) *)
Definition get_point (v : t) : Z :=
  match sel v with
  | r :: _ => Region.b r
  | [] => -1
  end.

(** CmdHelper.set_selection (line 390) called with one position:
    [sublime.Region(a, None)] is the empty region at [a]. *)
Definition set_selection (a : Z) (v : t) : t :=
  sel_add (Region.mk a a) (sel_clear v).

(** CmdHelper.ensure_visible (line 472) *)
Definition ensure_visible (x : target) (v : t) : t :=
  mk (sel v) (marked v) (status v) (mark_ring v) (x :: shown v).

(** CmdHelper.set_mark (line 350) with [and_selection=False] *)
Definition set_mark (pos : Z) (v : t) : t :=
  set_status "Mark Saved"
    (mk (sel v) (marked v) (status v) (pos :: mark_ring v) (shown v)).
End View.

(** ** ISearchInfo *)
Module ISearchInfo.

(** The state the methods run in: the fields of the one [ISearchInfo]
    instance, the class attribute [last_search], whether
    [ViewState.isearch_info] refers to the instance, the python lists,
    and the host: the view and the input panel ([input_view]) with its
    text. *)
Record World := mkWorld {
  current : StackItem.t;
  point : Z;
  in_changes : Z;
  forward : bool;
  is_active : bool;
  regex : bool;
  last_search : option string;
  isearch_info : bool;
  heap : Heap;
  view : View.t;
  panel_open : bool;
  input_text : string
}.

Definition set_current (x : StackItem.t) (w : World) : World :=
  mkWorld x (point w) (in_changes w) (forward w) (is_active w) (regex w)
    (last_search w) (isearch_info w) (heap w) (view w) (panel_open w)
    (input_text w).
Definition set_in_changes (x : Z) (w : World) : World :=
  mkWorld (current w) (point w) x (forward w) (is_active w) (regex w)
    (last_search w) (isearch_info w) (heap w) (view w) (panel_open w)
    (input_text w).
Definition set_forward (x : bool) (w : World) : World :=
  mkWorld (current w) (point w) (in_changes w) x (is_active w) (regex w)
    (last_search w) (isearch_info w) (heap w) (view w) (panel_open w)
    (input_text w).
Definition set_is_active (x : bool) (w : World) : World :=
  mkWorld (current w) (point w) (in_changes w) (forward w) x (regex w)
    (last_search w) (isearch_info w) (heap w) (view w) (panel_open w)
    (input_text w).
Definition set_last_search (x : option string) (w : World) : World :=
  mkWorld (current w) (point w) (in_changes w) (forward w) (is_active w)
    (regex w) x (isearch_info w) (heap w) (view w) (panel_open w)
    (input_text w).
Definition set_isearch_info (x : bool) (w : World) : World :=
  mkWorld (current w) (point w) (in_changes w) (forward w) (is_active w)
    (regex w) (last_search w) x (heap w) (view w) (panel_open w)
    (input_text w).
Definition set_heap (x : Heap) (w : World) : World :=
  mkWorld (current w) (point w) (in_changes w) (forward w) (is_active w)
    (regex w) (last_search w) (isearch_info w) x (view w) (panel_open w)
    (input_text w).
Definition set_view (x : View.t) (w : World) : World :=
  mkWorld (current w) (point w) (in_changes w) (forward w) (is_active w)
    (regex w) (last_search w) (isearch_info w) (heap w) x (panel_open w)
    (input_text w).
Definition set_panel_open (x : bool) (w : World) : World :=
  mkWorld (current w) (point w) (in_changes w) (forward w) (is_active w)
    (regex w) (last_search w) (isearch_info w) (heap w) (view w) x
    (input_text w).
Definition set_input_text (x : string) (w : World) : World :=
  mkWorld (current w) (point w) (in_changes w) (forward w) (is_active w)
    (regex w) (last_search w) (isearch_info w) (heap w) (view w)
    (panel_open w) x.

(** The view methods lifted to the world. *)
Definition on_view (f : View.t -> View.t) (w : World) : World :=
  set_view (f (view w)) w.

(** find_closest (lines 1249-1266): the two [for] loops, [index] being
    the position [enumerate] has reached. *)
Fixpoint closest_forward (regions : list Region.t) (pos index : Z) : Z :=
  match regions with
  | [] => -1
  | r :: rest =>
      if pos <=? Region.end_ r then index
      else closest_forward rest pos (index + 1)
  end.

Fixpoint closest_backward (regions : list Region.t) (pos index last : Z) : Z :=
  match regions with
  | [] => last
  | r :: rest =>
      if pos <? Region.begin r then index - 1
      else closest_backward rest pos (index + 1) last
  end.

Definition find_closest (regions : list Region.t) (pos : Z) (forward : bool) : Z :=
  if len regions =? 0 then -1
  else if forward then closest_forward regions pos 0
  else closest_backward regions pos 0 (len regions - 1).

(** The loop of not_in_error (lines 1106-1111), from node [si] down. *)
Fixpoint not_in_error_from (h : Heap) (si : StackItem.t) : option StackItem.t :=
  if negb (truthy (deref h (StackItem.selected si)))
     && truthy_str (StackItem.search si)
  then match StackItem.prev si with
       | Some p => not_in_error_from h p
       | None => None
       end
  else Some si.

Definition not_in_error (w : World) : option StackItem.t :=
  not_in_error_from (heap w) (current w).

(** [si != self.current] for a node [si] of the chain of [current]. *)
Definition is_not (si cur : StackItem.t) : bool :=
  negb (StackItem.depth si =? StackItem.depth cur)%nat.

(** push (lines 1071-1073) *)
Definition push (item : StackItem.t) (w : World) : World :=
  set_current (StackItem.set_prev (Some (current w)) item) w.

(** update (lines 1138-1161) *)
Definition update (w : World) : World :=
  match not_in_error w with
  | None => w
  | Some si =>
      let w := on_view (View.add_regions "find" (StackItem.regions si)) w in
      let selected := deref (heap w) (StackItem.selected si) in
      let w := on_view (View.add_regions "selected" selected) w in
      let w := match last selected with
               | Some r => on_view (View.ensure_visible (AtRegion r)) w
               | None => w
               end in
      let cur := current w in
      let status := ""%string in
      let status := if is_not si cur then (status ++ "Failing ")%string else status in
      let status := if StackItem.wrapped cur
                    then (status ++ "Wrapped ")%string else status in
      let status := (status ++ "I-Search "
                     ++ (if StackItem.forward cur then "Forward" else "Reverse"))%string in
      let status :=
        if is_not si cur then
          if 0 <? len (StackItem.regions cur) then
            (status ++ " " ++ str_of_len (StackItem.regions cur) ++ " matches "
             ++ (if forward w then "above" else "below"))%string
          else status
        else
          (status ++ " " ++ str_of_len (StackItem.regions si) ++ " matches, "
           ++ str_of_len selected ++ " cursors")%string in
      on_view (View.set_status status) w
  end.

(** finish (lines 1113-1136) *)
Definition finish (abort : bool) (w : World) : World :=
  let w := if truthy_str (StackItem.search (current w))
           then set_last_search (Some (StackItem.search (current w))) w
           else w in
  let w := on_view (View.set_status "") w in
  let '(w, point_set) :=
    if negb abort then
      let w := on_view View.sel_clear w in
      match not_in_error w with
      | Some cur =>
          if truthy (deref (heap w) (StackItem.selected cur))
          then (on_view (View.sel_add_all (deref (heap w) (StackItem.selected cur))) w,
                true)
          else (w, false)
      | None => (w, false)
      end
    else (w, false) in
  let w := if negb point_set
           then on_view (View.ensure_visible (AtPoint (point w)))
                  (on_view (View.set_selection (point w)) w)
           else on_view (View.set_mark (point w)) w in
  on_view (View.erase_regions "selected") (on_view (View.erase_regions "find") w).

(** on_done (lines 1016-1020) and on_cancel (lines 1022-1026) *)
Definition on_done (w : World) : World :=
  let w := set_isearch_info false w in
  if is_active w then finish false w else w.

Definition on_cancel (w : World) : World :=
  let w := set_isearch_info false w in
  if is_active w then finish true w else w.

(** deactivate (lines 1087-1089) *)
Definition deactivate (w : World) : World :=
  finish false (set_is_active false w).

Section WithHost.
Context {host : Host}.

(** [window.run_command("hide_panel")]: an open panel is closed and the
    host runs the callback it associates with hiding. *)
Definition hide_panel (w : World) : World :=
  if panel_open w then
    let w := set_panel_open false w in
    match hide_panel_event with
    | NoCallback => w
    | CallsOnDone => on_done w
    | CallsOnCancel => on_cancel w
    end
  else w.

(** done (lines 1091-1093) *)
Definition done (w : World) : World := hide_panel w.

(** cancel (lines 1226-1228) *)
Definition cancel (w : World) : World := finish true (hide_panel w).

(** The flags [find] computes (lines 1041-1043). *)
Definition find_flags (regex : bool) (val : string) : Z :=
  let flags := if regex then 0 else LITERAL in
  if negb (re_search_AZ val) then Z.lor flags IGNORECASE else flags.

(** find (lines 1039-1062) *)
Definition find (val : string) (w : World) : result World :=
  let flags := find_flags (regex w) val in
  if 0 <? str_len val then
    let regions := find_all val flags in
    p ← StackItem.get_point (current w);
    let point := default (point w) p in
    let index := find_closest regions point (forward w) in
    let '(fresh_list, h) := new_list (heap w) in
    '(item, h) ← StackItem.init val regions fresh_list index (forward w)
                    (StackItem.wrapped (current w)) h;
    Ok (update (push item (set_heap h w)))
  else Ok (update w).

(** on_change (lines 1028-1037) *)
Definition on_change (val : string) (w : World) : result World :=
  if 0 <? in_changes w then Ok (set_in_changes (in_changes w - 1) w)
  else find val w.

(** set_text (lines 1099-1104).  The three commands replace the text of
    the input panel; the host then reports the change through
    [on_change], once (the comment in [on_change] counts on it). *)
Definition set_text (text : string) (is_pop : bool) (w : World) : result World :=
  let w := if is_pop then set_in_changes (in_changes w + 1) w else w in
  let w := set_input_text text w in
  on_change text w.

(** pop (lines 1078-1085) *)
Definition pop (w : World) : result World :=
  match StackItem.prev (current w) with
  | Some p =>
      let w := set_current p w in
      w ← set_text (StackItem.search (current w)) true w;
      let w := set_forward (StackItem.forward (current w)) w in
      Ok (update w)
  | None => Ok w
  end.

(** next (lines 1167-1179); [forward = None] is the default argument. *)
Definition next (keep : bool) (forward : option bool) (w : World) : result World :=
  match StackItem.prev (current w) with
  | None =>
      match last_search w with
      | Some s => if truthy_str s then set_text s false w else Ok w
      | None => Ok w
      end
  | Some _ =>
      let forward := default (StackItem.forward (current w)) forward in
      '(self, new, h) ← StackItem.step (current w) forward keep (heap w);
      let w := set_heap h (set_current self w) in
      match new with
      | Some new => Ok (update (push new w))
      | None => Ok w
      end
  end.

(** The [while] loop of quit (lines 1239-1240). *)
Fixpoint back_up (cur : StackItem.t) : StackItem.t :=
  match StackItem.prev cur with
  | Some p => if negb (truthy (StackItem.regions p)) then back_up p else cur
  | None => cur
  end.

(** quit (lines 1230-1246) *)
Definition quit (w : World) : result World :=
  let '(close, w) :=
    if truthy (StackItem.regions (current w)) then (true, w)
    else
      let w := set_current (back_up (current w)) w in
      match StackItem.prev (current w) with
      | None => (true, w)
      | Some _ => (false, w)
      end in
  if close then Ok (cancel w) else pop w.

(** CmdHelper.is_word_char (lines 476-482) with [forward=True]. *)
Definition is_word_char (pos : Z) (separators : string) : bool :=
  let char := substr pos in
  negb (char_in char (String " " (String "009" (String "013" (String "010" EmptyString))))
        || char_in char separators).

(** append_one, local to append_from_cursor (lines 1205-1208);
    character 092 is the backslash. *)
Definition append_one (w : World) (ch : ascii) : string :=
  if regex w && char_in ch "{}()[].*+"
  then String "092" (str_of_char ch) else str_of_char ch.

(** The [while] loop of append_from_cursor (lines 1217-1223).  Each
    round moves [point] one step towards [limit], so [limit - point]
    rounds are enough. *)
Fixpoint append_word (rounds : nat) (point limit : Z) (search separators : string)
    (case_sensitive : bool) (w : World) : result World :=
  match rounds with
  | O => Ok w
  | S rounds =>
      if (point <? limit) && is_word_char point separators then
        let ch := substr point in
        let ch := if negb case_sensitive then lower ch else ch in
        let search := (search ++ append_one w ch)%string in
        w ← on_change search w;
        append_word rounds (point + 1) limit search separators case_sensitive w
      else Ok w
  end.

(** append_from_cursor (lines 1181-1224) *)
Definition append_from_cursor (w : World) : result World :=
  let si := current w in
  let selected := deref (heap w) (StackItem.selected si) in
  if (0 <? str_len (StackItem.search si)) && negb (truthy selected) then Ok w
  else
    let limit := size in
    let point := match last selected with
                 | Some r => Region.end_ r
                 | None => point w
                 end in
    if limit <=? point then Ok w
    else
      let search := StackItem.search si in
      let separators := jove_word_separators in
      let case_sensitive := re_search_AZ search in
      w ← (if point <? limit then
             let search := (search ++ append_one w (substr point))%string in
             let point := point + 1 in
             w ← on_change search w;
             append_word (Z.to_nat (limit - point)) point limit search
               separators case_sensitive w
           else Ok w);
      set_text (StackItem.search (current w)) true w.

(** __init__ (lines 995-1006) followed by open (lines 1008-1011), as
    JoveIncSearchCommand.run_cmd does when no search is active
    (lines 1271-1276). *)
Definition start (v : View.t) (h : Heap) (last : option string)
    (forward regex : bool) : result World :=
  let '(selected, h) := new_list h in
  '(root, h) ← StackItem.init "" [] selected (-1) forward false h;
  let w := mkWorld root (View.get_point v) 0 forward true regex last true h v
             false "" in
  let w := update w in
  Ok (set_input_text "" (set_panel_open true w)).

End WithHost.
End ISearchInfo.

(** ** The chain of states *)

(** The bottom node of the chain of [si]: the state [__init__] created. *)
Fixpoint root (si : StackItem.t) : StackItem.t :=
  match StackItem.prev si with
  | Some p => root p
  | None => si
  end.

(** The nearest node strictly below [si] that has matches. *)
Fixpoint nearest_with_matches (si : StackItem.t) : option StackItem.t :=
  match StackItem.prev si with
  | Some p => if truthy (StackItem.regions p) then Some p else nearest_with_matches p
  | None => None
  end.

(** ** Sorted match lists *)

(** Matches in ascending buffer order: begins never decrease. *)
Definition sorted_by_begin (regions : list Region.t) : Prop :=
  forall (i j : nat) (ri rj : Region.t),
    regions !! i = Some ri -> regions !! j = Some rj -> (i <= j)%nat ->
    Region.begin ri <= Region.begin rj.

(** ** The active match *)

(** The list holding the active match of [regions] at [index]; empty for
    the sentinel. *)
Definition active_span (regions : list Region.t) (index : Z) : list Region.t :=
  if 0 <=? index
  then match regions !! Z.to_nat index with
       | Some r => [r]
       | None => []
       end
  else [].

(** ** Invariants of a session *)

(** The data-model invariant of one node: the active index is the sentinel
    -1 or an index of [regions]. *)
Definition wf_item (si : StackItem.t) : Prop :=
  -1 <= StackItem.current_index si < len (StackItem.regions si).

(** Every node of the chain satisfies it. *)
Fixpoint chain_wf (si : StackItem.t) : Prop :=
  wf_item si
  /\ match StackItem.prev si with
     | Some p => chain_wf p
     | None => True
     end.

(** What holds of every session between two calls: the nodes are well
    formed, the root is the node without matches that [__init__] builds,
    and no more replayed queries are awaited than were announced. *)
Definition session_inv (w : ISearchInfo.World) : Prop :=
  chain_wf (ISearchInfo.current w)
  /\ StackItem.regions (root (ISearchInfo.current w)) = []
  /\ 0 <= ISearchInfo.in_changes w.

(** ** Sequences of calls

    The calls that reach the [ISearchInfo] instance: the callbacks of the
    input panel, the commands of JoveIncSearchCommand.run_cmd (lines
    1278-1283), JoveQuitCommand (line 1299) and the view watcher (lines
    126 and 132). *)
Inductive call :=
| OnChange (val : string)
| OnDone
| OnCancel
| Next (keep : bool) (forward : option bool)
| Pop
| AppendFromCursor
| Quit
| Cancel
| Done
| Deactivate.

Definition run_call {host : Host} (c : call) (w : ISearchInfo.World)
  : result ISearchInfo.World :=
  match c with
  | OnChange val => ISearchInfo.on_change val w
  | OnDone => Ok (ISearchInfo.on_done w)
  | OnCancel => Ok (ISearchInfo.on_cancel w)
  | Next keep forward => ISearchInfo.next keep forward w
  | Pop => ISearchInfo.pop w
  | AppendFromCursor => ISearchInfo.append_from_cursor w
  | Quit => ISearchInfo.quit w
  | Cancel => Ok (ISearchInfo.cancel w)
  | Done => Ok (ISearchInfo.done w)
  | Deactivate => Ok (ISearchInfo.deactivate w)
  end.

Fixpoint run_calls {host : Host} (cs : list call) (w : ISearchInfo.World)
  : result ISearchInfo.World :=
  match cs with
  | [] => Ok w
  | c :: cs => w ← run_call c w; run_calls cs w
  end.

(** Where append_from_cursor starts to read the buffer (lines 1191-1195):
    the end of the last selected span of the current state, and the anchor
    if it has none. *)
Definition growth_point (w : ISearchInfo.World) : Z :=
  match last (deref (ISearchInfo.heap w)
                (StackItem.selected (ISearchInfo.current w))) with
  | Some r => Region.end_ r
  | None => ISearchInfo.point w
  end.

(** ** The numeric argument (ViewState, lines 42-112)

    The fields of a [ViewState] but for the view and its mark ring. *)
Module ViewState.

Record t := mk {
  active_mark : bool;
  this_cmd : option string;
  last_cmd : option string;
  argument_supplied : bool;
  argument_value : Z;
  argument_negative : bool;
  drag_count : Z;
  entered : Z
}.

Definition set_this_cmd (x : option string) (self : t) : t :=
  mk (active_mark self) x (last_cmd self) (argument_supplied self)
    (argument_value self) (argument_negative self) (drag_count self) (entered self).
Definition set_last_cmd (x : option string) (self : t) : t :=
  mk (active_mark self) (this_cmd self) x (argument_supplied self)
    (argument_value self) (argument_negative self) (drag_count self) (entered self).
Definition set_argument_supplied (x : bool) (self : t) : t :=
  mk (active_mark self) (this_cmd self) (last_cmd self) x
    (argument_value self) (argument_negative self) (drag_count self) (entered self).
Definition set_argument_value (x : Z) (self : t) : t :=
  mk (active_mark self) (this_cmd self) (last_cmd self) (argument_supplied self)
    x (argument_negative self) (drag_count self) (entered self).
Definition set_argument_negative (x : bool) (self : t) : t :=
  mk (active_mark self) (this_cmd self) (last_cmd self) (argument_supplied self)
    (argument_value self) x (drag_count self) (entered self).
Definition set_entered (x : Z) (self : t) : t :=
  mk (active_mark self) (this_cmd self) (last_cmd self) (argument_supplied self)
    (argument_value self) (argument_negative self) (drag_count self) x.

(** reset (lines 86-93) *)
Definition reset (self : t) : t :=
  mk (active_mark self) None None false 0 false 0 0.

(** get_count (lines 98-109): the count and the state it leaves. *)
Definition get_count (peek : bool) (self : t) : Z * t :=
  if argument_supplied self then
    let count := argument_value self in
    let '(count, self) :=
      if argument_negative self
      then (- count, if negb peek then set_argument_negative false self else self)
      else (count, self) in
    let self := if negb peek then set_argument_supplied false self else self in
    (count, self)
  else (1, self).

End ViewState.

(** The [value] of a jove_universal_argument key binding: the strings
    by_four and negative, or an integer. *)
Inductive arg_value := ByFour | Negative | Int (n : Z).

(** JoveUniversalArgumentCommand.run_cmd (lines 721-737) *)
Definition universal_argument (value : arg_value) (state : ViewState.t) : ViewState.t :=
  if negb (ViewState.argument_supplied state) then
    let state := ViewState.set_argument_supplied true state in
    match value with
    | ByFour => ViewState.set_argument_value 4 state
    | Negative => ViewState.set_argument_negative true state
    | Int n => ViewState.set_argument_value n state
    end
  else
    match value with
    | ByFour =>
        ViewState.set_argument_value (ViewState.argument_value state * 4) state
    | Int n =>
        ViewState.set_argument_value (ViewState.argument_value state * 10 + n) state
    | Negative =>
        ViewState.set_argument_value (- ViewState.argument_value state) state
    end.

(** JoveTextCommand.run (lines 535-553).  [run_cmd] is the body of the
    command: the state it leaves and whether it returned (true) or raised
    (false); when it raises, the [finally] clause runs and the rest is
    skipped. *)
Definition run (cmd : string) (unregistered : bool)
    (run_cmd : ViewState.t -> ViewState.t * bool) (vs : ViewState.t)
  : ViewState.t * bool :=
  let counted := negb (String.eqb cmd "jove_universal_argument") || unregistered in
  let vs := if (ViewState.entered vs =? 0) && counted
            then ViewState.set_this_cmd (Some cmd) vs else vs in
  let vs := ViewState.set_entered (ViewState.entered vs + 1) vs in
  let '(vs, returned) := run_cmd vs in
  let vs := ViewState.set_entered (ViewState.entered vs - 1) vs in
  if returned then
    (if (ViewState.entered vs =? 0) && counted
     then ViewState.set_argument_supplied false
            (ViewState.set_argument_value 0
               (ViewState.set_last_cmd (ViewState.this_cmd vs) vs))
     else vs,
     true)
  else (vs, false).

(** The command jove_universal_argument run with [value]. *)
Definition press (value : arg_value) (vs : ViewState.t) : ViewState.t :=
  fst (run "jove_universal_argument" false
         (fun s => (universal_argument value s, true)) vs).

(** Several of them in a row. *)
Definition presses (values : list arg_value) (vs : ViewState.t) : ViewState.t :=
  fold_left (fun s v => press v s) values vs.

(** The number a row of decimal digits writes. *)
Definition decimal (digits : list Z) : Z :=
  fold_left (fun acc d => acc * 10 + d) digits 0.

(** ** Panes (JoveTravelToPaneCommand.run, lines 852-863)

    The group that gets the focus, [num] being the number of groups and
    [active] the group that has it. *)
Definition travel_to_pane (direction : string) (num active : Z) : Z :=
  let dir := if String.eqb direction "up" then -1 else 1 in
  let active := active + dir in
  if num <=? active then 0
  else if active <? 0 then num - 1
  else active.

(** ** White space around the cursor
    (JoveDeleteWhiteSpaceCommand.delete_white_space, lines 705-718) *)

(** [data[i:i+1] in (" \t")] for an index that is not negative: the slice
    is one character, or empty beyond the end, and the empty string is in
    every string. *)
Definition blank_slice (data : list ascii) (i : nat) : bool :=
  match data !! i with
  | Some c => Ascii.eqb c " " || Ascii.eqb c "009"
  | None => true
  end.

(** The first loop (lines 710-712). *)
Fixpoint white_space_start (data : list ascii) (start : nat) : nat :=
  match start with
  | O => O
  | S before => if blank_slice data before then white_space_start data before else start
  end.

(** The second loop (lines 713-716); it moves [end_] towards [limit], so
    [limit] rounds are enough. *)
Fixpoint white_space_end (rounds : nat) (data : list ascii) (limit end_ : nat) : nat :=
  match rounds with
  | O => end_
  | S rounds =>
      if (end_ + 1 <? limit)%nat && blank_slice data end_
      then white_space_end rounds data limit (end_ + 1)
      else end_
  end.

(** The columns of the line between which the text is erased, [col] being
    the column of the cursor. *)
Definition white_space_span (data : list ascii) (col : nat) : nat * nat :=
  (white_space_start data col,
   white_space_end (List.length data) data (List.length data) col).

(** ** A host over a fixed buffer, for the examples

    [view.find_all] in literal mode: the matches of the query in the
    buffer, left to right and not overlapping, compared after [lower]
    when the IGNORECASE bit is set. *)
Module BufferHost.

Fixpoint starts_with (fold : bool) (q s : list ascii) : bool :=
  match q, s with
  | [], _ => true
  | _ :: _, [] => false
  | c :: q', d :: s' =>
      (if fold then Ascii.eqb (lower c) (lower d) else Ascii.eqb c d)
      && starts_with fold q' s'
  end.

(** [skip] characters of the last match are still to be passed. *)
Fixpoint matches_from (fold : bool) (q s : list ascii) (pos : Z) (skip : nat)
  : list Region.t :=
  match s with
  | [] => []
  | _ :: s' =>
      match skip with
      | S k => matches_from fold q s' (pos + 1) k
      | O =>
          if starts_with fold q s
          then Region.mk pos (pos + len q)
                 :: matches_from fold q s' (pos + 1) (List.length q - 1)
          else matches_from fold q s' (pos + 1) O
      end
  end.

Definition literal_find_all (text query : string) (flags : Z) : list Region.t :=
  match list_ascii_of_string query with
  | [] => []
  | q => matches_from (Z.testbit flags 1) q (list_ascii_of_string text) 0 O
  end.

(** [view.substr(point)]: the character at [point], NUL outside the
    buffer. *)
Definition char_at (text : string) (p : Z) : ascii :=
  if p <? 0 then zero
  else default zero (list_ascii_of_string text !! Z.to_nat p).

Definition make (text : string) (event : PanelEvent) : Host := {|
  LITERAL := 1;
  IGNORECASE := 2;
  find_all := literal_find_all text;
  substr := char_at text;
  size := str_len text;
  jove_word_separators := "./\()'-:,.;<>~!@#$%^&*|+=[]{}`~?";
  hide_panel_event := event
|}.

(** A view with one cursor at [p] and nothing else. *)
Definition view_at (p : Z) : View.t := View.mk [Region.mk p p] ∅ "" [] [].

End BufferHost.

(** ** Example sessions *)
Module Sessions.
Import ISearchInfo.

(** The buffer [ab ab ab], searched forward and literally; hiding the
    panel is reported through [on_cancel]. *)
Definition host_ab : Host := BufferHost.make "ab ab ab" CallsOnCancel.

Definition root_fwd : StackItem.t :=
  StackItem.mk None "" [] 0%nat (-1) true false false.

Definition regions_ab : list Region.t :=
  [Region.mk 0 2; Region.mk 3 5; Region.mk 6 8].

(** The node pushed when [ab] is typed: three matches, the one at
    [index] active and selected. *)
Definition item_ab_at (index : Z) : StackItem.t :=
  StackItem.mk (Some root_fwd) "ab" regions_ab 1%nat index true false false.

(** The session started at offset [p] after [ab] is typed, [r] being the
    active match and [index] its index. *)
Definition world_ab_at (p index : Z) (r : Region.t) : World := {|
  current := item_ab_at index;
  point := p;
  in_changes := 0;
  forward := true;
  is_active := true;
  regex := false;
  last_search := None;
  isearch_info := true;
  heap := <[1%nat := [r]]> (<[0%nat := []]> ∅);
  view := {|
    View.sel := [Region.mk p p];
    View.marked :=
      <["selected"%string := [r]]> (<["find"%string := regions_ab]> ∅);
    View.status := "I-Search Forward 3 matches, 1 cursors";
    View.mark_ring := [];
    View.shown := [AtRegion r]
  |};
  panel_open := true;
  input_text := ""
|}.

(** Started at offset 3: the match at offset 3 is active. *)
Definition item_ab : StackItem.t := item_ab_at 1.
Definition world_ab : World := world_ab_at 3 1 (Region.mk 3 5).

(** Started at offset 6: the last match is active. *)
Definition world_ab_end : World := world_ab_at 6 2 (Region.mk 6 8).

(** [world_ab] after [z] is typed as well: no match. *)
Definition item_abz : StackItem.t :=
  StackItem.mk (Some item_ab) "abz" [] 2%nat (-1) true false false.

Definition world_abz : World := {|
  current := item_abz;
  point := 3;
  in_changes := 0;
  forward := true;
  is_active := true;
  regex := false;
  last_search := None;
  isearch_info := true;
  heap := <[2%nat := []]> (<[1%nat := [Region.mk 3 5]]> (<[0%nat := []]> ∅));
  view := {|
    View.sel := [Region.mk 3 3];
    View.marked :=
      <["selected"%string := [Region.mk 3 5]]>
        (<["find"%string := regions_ab]> ∅);
    View.status := "Failing I-Search Forward";
    View.mark_ring := [];
    View.shown := [AtRegion (Region.mk 3 5); AtRegion (Region.mk 3 5)]
  |};
  panel_open := true;
  input_text := ""
|}.

(** The buffer [FOO bar], searched forward and literally from offset 0,
    before anything is typed. *)
Definition host_FOO : Host := BufferHost.make "FOO bar" CallsOnCancel.

Definition world_FOO : World := {|
  current := root_fwd;
  point := 0;
  in_changes := 0;
  forward := true;
  is_active := true;
  regex := false;
  last_search := None;
  isearch_info := true;
  heap := <[0%nat := []]> ∅;
  view := {|
    View.sel := [Region.mk 0 0];
    View.marked := <["selected"%string := []]> (<["find"%string := []]> ∅);
    View.status := "I-Search Forward 0 matches, 0 cursors";
    View.mark_ring := [];
    View.shown := []
  |};
  panel_open := true;
  input_text := ""
|}.

End Sessions.

(** ** Upper-case letters

    [ch.isupper()] on one character of the Latin-1 range: the letters
    [lower] changes, which are A-Z and the accented capitals.  The code
    never calls it; it is what "the query contains an upper-case letter"
    says, to be compared with [re_search_AZ], the test the code makes. *)
Definition upper_case_letter (c : ascii) : bool := negb (Ascii.eqb (lower c) c).

(** ** A host that searches with regular expressions

    [view.find_all] with and without the LITERAL bit.  With it the query
    is searched as [BufferHost] does.  Without it the query is a regular
    expression; this host reads the patterns built from ordinary
    characters, the full stop (any character but a newline) and a
    backslash before a character that is neither a letter nor a digit
    (that character itself).  Every such pattern matches texts of one
    length, the number of its atoms.  A pattern with another operator is
    beyond this host, which reports no match for it. *)
Module RegexHost.

Inductive atom := Any | Lit (c : ascii).

Definition is_operator (c : ascii) : bool := char_in c "^$*+?()[]{}|".

Definition is_alnum (c : ascii) : bool :=
  let n := Z.of_nat (nat_of_ascii c) in
  ((48 <=? n) && (n <=? 57)) || ((65 <=? n) && (n <=? 90))
  || ((97 <=? n) && (n <=? 122)).

Fixpoint parse (p : list ascii) : option (list atom) :=
  match p with
  | [] => Some []
  | c :: p' =>
      if Ascii.eqb c "092" then
        match p' with
        | e :: p'' => if is_alnum e then None else cons (Lit e) <$> parse p''
        | [] => None
        end
      else if Ascii.eqb c "." then cons Any <$> parse p'
      else if is_operator c then None
      else cons (Lit c) <$> parse p'
  end.

Definition atom_matches (fold : bool) (a : atom) (d : ascii) : bool :=
  match a with
  | Any => negb (Ascii.eqb d "010")
  | Lit c => if fold then Ascii.eqb (lower c) (lower d) else Ascii.eqb c d
  end.

Fixpoint starts_with (fold : bool) (q : list atom) (s : list ascii) : bool :=
  match q, s with
  | [], _ => true
  | _ :: _, [] => false
  | a :: q', d :: s' => atom_matches fold a d && starts_with fold q' s'
  end.

(** [skip] characters of the last match are still to be passed. *)
Fixpoint matches_from (fold : bool) (q : list atom) (s : list ascii) (pos : Z)
    (skip : nat) : list Region.t :=
  match s with
  | [] => []
  | _ :: s' =>
      match skip with
      | S k => matches_from fold q s' (pos + 1) k
      | O =>
          if starts_with fold q s
          then Region.mk pos (pos + len q)
                 :: matches_from fold q s' (pos + 1) (List.length q - 1)
          else matches_from fold q s' (pos + 1) O
      end
  end.

Definition regex_find_all (text query : string) (flags : Z) : list Region.t :=
  match parse (list_ascii_of_string query) with
  | Some (a :: q) =>
      matches_from (Z.testbit flags 1) (a :: q) (list_ascii_of_string text) 0 O
  | _ => []
  end.

Definition make (text : string) (event : PanelEvent) : Host := {|
  LITERAL := 1;
  IGNORECASE := 2;
  find_all := fun query flags =>
    if Z.testbit flags 0 then BufferHost.literal_find_all text query flags
    else regex_find_all text query flags;
  substr := BufferHost.char_at text;
  size := str_len text;
  jove_word_separators := "./\()'-:,.;<>~!@#$%^&*|+=[]{}`~?";
  hide_panel_event := event
|}.

End RegexHost.

(** ** More example sessions *)
Module MoreSessions.

(** The buffer [a.b], searched forward with regular expressions from
    offset 1, before anything is typed. *)
Definition host_regex : Host := RegexHost.make "a.b" CallsOnCancel.

Definition world_regex : ISearchInfo.World := {|
  ISearchInfo.current := Sessions.root_fwd;
  ISearchInfo.point := 1;
  ISearchInfo.in_changes := 0;
  ISearchInfo.forward := true;
  ISearchInfo.is_active := true;
  ISearchInfo.regex := true;
  ISearchInfo.last_search := None;
  ISearchInfo.isearch_info := true;
  ISearchInfo.heap := <[0%nat := []]> ∅;
  ISearchInfo.view := {|
    View.sel := [Region.mk 1 1];
    View.marked := <["selected"%string := []]> (<["find"%string := []]> ∅);
    View.status := "I-Search Forward 0 matches, 0 cursors";
    View.mark_ring := [];
    View.shown := []
  |};
  ISearchInfo.panel_open := true;
  ISearchInfo.input_text := ""
|}.

(** The buffer [ab], searched forward and literally from offset 0. *)
Definition host_one : Host := BufferHost.make "ab" CallsOnCancel.

(** The node pushed when [ab] is typed: its one match is active. *)
Definition item_one : StackItem.t :=
  StackItem.mk (Some Sessions.root_fwd) "ab" [Region.mk 0 2] 1%nat 0 true false false.

(** The session after [ab] is typed and the search is repeated forward
    once: the step was at the last match and has set the pending-wrap
    flag. *)
Definition world_one_armed : ISearchInfo.World := {|
  ISearchInfo.current := StackItem.set_try_wrapped true item_one;
  ISearchInfo.point := 0;
  ISearchInfo.in_changes := 0;
  ISearchInfo.forward := true;
  ISearchInfo.is_active := true;
  ISearchInfo.regex := false;
  ISearchInfo.last_search := None;
  ISearchInfo.isearch_info := true;
  ISearchInfo.heap := <[1%nat := [Region.mk 0 2]]> (<[0%nat := []]> ∅);
  ISearchInfo.view := {|
    View.sel := [Region.mk 0 0];
    View.marked :=
      <["selected"%string := [Region.mk 0 2]]>
        (<["find"%string := [Region.mk 0 2]]> ∅);
    View.status := "I-Search Forward 1 matches, 1 cursors";
    View.mark_ring := [];
    View.shown := [AtRegion (Region.mk 0 2)]
  |};
  ISearchInfo.panel_open := true;
  ISearchInfo.input_text := ""
|}.

(** The session on [ab ab ab] started at offset 3 after [z] is typed:
    no state of the chain has a match. *)
Definition item_z : StackItem.t :=
  StackItem.mk (Some Sessions.root_fwd) "z" [] 1%nat (-1) true false false.

Definition world_z : ISearchInfo.World := {|
  ISearchInfo.current := item_z;
  ISearchInfo.point := 3;
  ISearchInfo.in_changes := 0;
  ISearchInfo.forward := true;
  ISearchInfo.is_active := true;
  ISearchInfo.regex := false;
  ISearchInfo.last_search := None;
  ISearchInfo.isearch_info := true;
  ISearchInfo.heap := <[1%nat := []]> (<[0%nat := []]> ∅);
  ISearchInfo.view := {|
    View.sel := [Region.mk 3 3];
    View.marked := <["selected"%string := []]> (<["find"%string := []]> ∅);
    View.status := "Failing I-Search Forward";
    View.mark_ring := [];
    View.shown := []
  |};
  ISearchInfo.panel_open := true;
  ISearchInfo.input_text := ""
|}.

End MoreSessions.

(** * Properties *)

(** ** The list store *)

Lemma fresh_lookup (h : Heap) : h !! fresh (dom h) = None.
Proof. apply not_elem_of_dom, is_fresh. Qed.

Lemma deref_Some (h : Heap) (l : nat) (xs : list Region.t) :
  h !! l = Some xs -> deref h l = xs.
Proof. intros E. unfold deref. now rewrite E. Qed.

Lemma deref_insert (h : Heap) (l : nat) (xs : list Region.t) :
  deref (<[l := xs]> h) l = xs.
Proof. unfold deref. now rewrite lookup_insert_eq. Qed.

Lemma insert_fresh_old (h : Heap) (xs : list Region.t) (l : nat) :
  l ∈ dom h -> <[fresh (dom h) := xs]> h !! l = h !! l.
Proof.
  intros Hl. apply lookup_insert_ne. intros E. subst l.
  now apply (is_fresh (dom h)).
Qed.

Lemma len_pos_truthy {A} (l : list A) : (0 <? len l) = truthy l.
Proof. destruct l; reflexivity. Qed.

Lemma len_zero_truthy {A} (l : list A) : (len l =? 0) = negb (truthy l).
Proof. destruct l; reflexivity. Qed.

Lemma getitem_nonneg {A} (l : list A) (i : Z) :
  0 <= i -> getitem l i = match l !! Z.to_nat i with
                          | Some x => Ok x
                          | None => Raise IndexError
                          end.
Proof.
  intros Hi. unfold getitem.
  destruct (i <? 0) eqn:E; [apply Z.ltb_lt in E; lia | ].
  now rewrite E.
Qed.

Lemma getitem_in_range {A} (l : list A) (i : Z) :
  0 <= i < len l -> exists x, l !! Z.to_nat i = Some x /\ getitem l i = Ok x.
Proof.
  intros [H0 H1]. unfold len in H1.
  destruct (lookup_lt_is_Some_2 l (Z.to_nat i)) as [x Hx]; [lia | ].
  exists x. split; [exact Hx | ]. rewrite getitem_nonneg by exact H0. now rewrite Hx.
Qed.

(** ** StackItem *)

(** What the tail of [step] builds: a new list object holding the copied
    list, shortened by one unless [keep], with the new active match
    appended. *)
Lemma step_new_spec (self : StackItem.t) (index : Z) (forward keep wrapped : bool)
    (h : Heap) :
  let old := deref h (StackItem.selected self) in
  0 <= index < len (StackItem.regions self) ->
  exists B,
    StackItem.regions self !! Z.to_nat index = Some B /\
    StackItem.step_new self index forward keep wrapped h =
      Ok (StackItem.mk None (StackItem.search self) (StackItem.regions self)
            (fresh (dom h)) index forward false wrapped,
          <[fresh (dom h) := (if keep then old else removelast old) ++ [B]]> h).
Proof.
  intros old Hidx.
  destruct (getitem_in_range _ _ Hidx) as (B & HB & HgB).
  exists B. split; [exact HB | ].
  unfold StackItem.step_new, copy. fold old.
  rewrite deref_insert, len_pos_truthy.
  assert (Htr : truthy (StackItem.regions self) = true).
  { destruct (StackItem.regions self); [ unfold len in Hidx; simpl in Hidx; lia | reflexivity ]. }
  assert (Hge : (0 <=? index) = true) by (apply Z.leb_le; lia).
  destruct keep; simpl negb; cbn [andb].
  - cbn [mbind result_bind]. unfold StackItem.init.
    rewrite Hge, Htr. cbn [andb]. rewrite HgB. cbn [mbind result_bind].
    unfold append. rewrite deref_insert, insert_insert_eq. reflexivity.
  - destruct old as [| x old'] eqn:Eold.
    + cbn [truthy mbind result_bind]. unfold StackItem.init.
      rewrite Hge, Htr. cbn [andb]. rewrite HgB. cbn [mbind result_bind].
      unfold append. rewrite deref_insert, insert_insert_eq. reflexivity.
    + cbn [truthy]. unfold del_last. rewrite deref_insert.
      cbn [mbind result_bind]. unfold StackItem.init.
      rewrite Hge, Htr. cbn [andb]. rewrite HgB. cbn [mbind result_bind].
      unfold append. rewrite deref_insert, !insert_insert_eq. reflexivity.
Qed.

Lemma truthy_len {A} (l : list A) : truthy l = true <-> 0 < len l.
Proof. destruct l; unfold len; simpl; split; intros; try lia; try discriminate; reflexivity. Qed.

Lemma set_try_wrapped_id (si : StackItem.t) :
  StackItem.set_try_wrapped (StackItem.try_wrapped si) si = si.
Proof. now destruct si. Qed.

Lemma set_try_wrapped_twice (u v : bool) (si : StackItem.t) :
  StackItem.set_try_wrapped u (StackItem.set_try_wrapped v si)
  = StackItem.set_try_wrapped u si.
Proof. now destruct si. Qed.

(** C6. A step that advances to a match B from a state whose selected list
    is [pre ++ [A]] gives the new state a list of its own: the old list
    with B appended when [keep], and with A replaced by B otherwise.  The
    list of the state stepped from, like every list that existed before
    the call, is left as it was. *)
Theorem step_keep_or_replace (self self' new : StackItem.t) (forward keep : bool)
    (h h' : Heap) (pre : list Region.t) (A : Region.t) :
  wf_item self ->
  h !! StackItem.selected self = Some (pre ++ [A]) ->
  StackItem.step self forward keep h = Ok (self', Some new, h') ->
  exists B,
    0 <= StackItem.current_index new /\
    StackItem.regions new !! Z.to_nat (StackItem.current_index new) = Some B /\
    h' !! StackItem.selected new
      = Some (if keep then pre ++ [A; B] else pre ++ [B]) /\
    StackItem.selected new <> StackItem.selected self /\
    StackItem.selected self' = StackItem.selected self /\
    h' !! StackItem.selected self = Some (pre ++ [A]) /\
    (forall l, l ∈ dom h -> h' !! l = h !! l).
Proof.
  intros Hwf Hold Hstep. unfold wf_item in Hwf.
  assert (Hdom : StackItem.selected self ∈ dom h) by (apply elem_of_dom; eauto).
  assert (Hfin : forall (s0 : StackItem.t) index wr,
             StackItem.selected s0 = StackItem.selected self ->
             StackItem.regions s0 = StackItem.regions self ->
             0 <= index < len (StackItem.regions self) ->
             ('(new, h) ← StackItem.step_new s0 index forward keep wr h;
              Ok (s0, Some new, h)) = Ok (self', Some new, h') ->
             exists B,
               0 <= StackItem.current_index new /\
               StackItem.regions new !! Z.to_nat (StackItem.current_index new) = Some B /\
               h' !! StackItem.selected new
                 = Some (if keep then pre ++ [A; B] else pre ++ [B]) /\
               StackItem.selected new <> StackItem.selected self /\
               StackItem.selected self' = StackItem.selected self /\
               h' !! StackItem.selected self = Some (pre ++ [A]) /\
               (forall l, l ∈ dom h -> h' !! l = h !! l)).
  { intros s0 index wr Hsel Hreg Hidx Hrun.
    rewrite <- Hreg in Hidx.
    destruct (step_new_spec s0 index forward keep wr h Hidx) as (B & HB & Hnew).
    rewrite Hnew in Hrun. cbn [mbind result_bind] in Hrun.
    injection Hrun as <- <- <-. cbn [StackItem.current_index StackItem.regions StackItem.selected].
    exists B. rewrite Hsel, (deref_Some _ _ _ Hold).
    repeat split.
    - lia.
    - exact HB.
    - rewrite lookup_insert_eq. f_equal. destruct keep.
      + now rewrite <- app_assoc.
      + now rewrite removelast_last.
    - intros E. apply (is_fresh (dom h)). now rewrite E.
    - rewrite insert_fresh_old by exact Hdom. exact Hold.
    - intros l Hl. now apply insert_fresh_old. }
  unfold StackItem.step in Hstep.
  destruct (truthy (StackItem.regions self) && _) eqn:E1 in Hstep.
  - apply andb_true_iff in E1 as [Htr _]. apply truthy_len in Htr.
    destruct (StackItem.try_wrapped self || _) in Hstep; [ | discriminate ].
    apply (Hfin (StackItem.set_try_wrapped false self) _ _ eq_refl eq_refl) in Hstep;
      [exact Hstep | ].
    destruct forward; lia.
  - destruct (_ || _) eqn:E2 in Hstep; [ | discriminate ].
    apply (Hfin self _ _ eq_refl eq_refl) in Hstep; [exact Hstep | ].
    destruct forward; cbn [andb negb orb] in E2.
    + rewrite orb_false_r in E2. apply Z.ltb_lt in E2. lia.
    + apply Z.ltb_lt in E2. lia.
Qed.

(** ** What update, finish and hide_panel leave alone *)

Section Frames.
Import ISearchInfo.
Context {host : Host}.

Lemma update_frame (w : World) : update w = set_view (view (update w)) w.
Proof.
  unfold update. destruct (not_in_error w) as [si | ]; [ | now destruct w ].
  destruct w. cbn. destruct (last _); reflexivity.
Qed.

Lemma update_current (w : World) : current (update w) = current w.
Proof. now rewrite update_frame. Qed.

Lemma update_heap (w : World) : heap (update w) = heap w.
Proof. now rewrite update_frame. Qed.

Lemma update_sel (w : World) : View.sel (view (update w)) = View.sel (view w).
Proof.
  unfold update. destruct (not_in_error w) as [si | ]; [ | reflexivity ].
  cbn. destruct (last _); reflexivity.
Qed.

(** What finish changes besides the view is [last_search]. *)
Lemma finish_frame (abort : bool) (w : World) :
  finish abort w
  = set_view (view (finish abort w))
      (set_last_search (last_search (finish abort w)) w).
Proof.
  unfold finish.
  destruct (truthy_str _); destruct abort; cbn [negb];
    try (destruct (not_in_error _) as [si | ]; [ destruct (truthy _) | ]);
    destruct w;
    cbv beta iota zeta delta [on_view set_view set_last_search view last_search
      current point in_changes forward is_active regex isearch_info heap
      panel_open input_text];
    reflexivity.
Qed.

(** finish with [abort]: the selection is the empty region at the anchor
    and both highlight sets are gone. *)
Lemma finish_abort_view (w : World) :
  View.sel (view (finish true w)) = [Region.mk (point w) (point w)]
  /\ View.marked (view (finish true w)) !! "find"%string = None
  /\ View.marked (view (finish true w)) !! "selected"%string = None.
Proof.
  unfold finish. destruct w. cbn. destruct (truthy_str _); cbn;
    (split; [reflexivity | split]);
    rewrite ?lookup_delete_eq; try reflexivity;
    (rewrite lookup_delete_ne by discriminate); now rewrite lookup_delete_eq.
Qed.


Lemma finish_point (abort : bool) (w : World) : point (finish abort w) = point w.
Proof. now rewrite finish_frame. Qed.

Lemma finish_panel_open (abort : bool) (w : World) :
  panel_open (finish abort w) = panel_open w.
Proof. now rewrite finish_frame. Qed.

Lemma hide_panel_point (w : World) : point (hide_panel w) = point w.
Proof.
  unfold hide_panel, on_done, on_cancel.
  destruct (panel_open w); [ | reflexivity ].
  destruct hide_panel_event; try reflexivity;
    destruct (is_active _); rewrite ?finish_point; reflexivity.
Qed.

Lemma hide_panel_closed (w : World) : panel_open (hide_panel w) = false.
Proof.
  unfold hide_panel, on_done, on_cancel.
  destruct (panel_open w) eqn:E; [ | exact E ].
  destruct hide_panel_event; try reflexivity;
    destruct (is_active _); rewrite ?finish_panel_open; reflexivity.
Qed.

End Frames.

(** ** The example sessions are sessions the code reaches *)

Example world_ab_reached :
  (w ← ISearchInfo.start (BufferHost.view_at 3) ∅ None true false;
   ISearchInfo.find (host := Sessions.host_ab) "ab" w)
  = Ok Sessions.world_ab.
Proof. vm_compute. reflexivity. Qed.

Example world_ab_end_reached :
  (w ← ISearchInfo.start (BufferHost.view_at 6) ∅ None true false;
   ISearchInfo.find (host := Sessions.host_ab) "ab" w)
  = Ok Sessions.world_ab_end.
Proof. vm_compute. reflexivity. Qed.

Example world_abz_reached :
  ISearchInfo.find (host := Sessions.host_ab) "abz" Sessions.world_ab
  = Ok Sessions.world_abz.
Proof. vm_compute. reflexivity. Qed.

Example world_FOO_reached :
  ISearchInfo.start (BufferHost.view_at 0) ∅ None true false
  = Ok Sessions.world_FOO.
Proof. vm_compute. reflexivity. Qed.

(** ** quit, cancel, deactivate *)

Section Finish.
Import ISearchInfo.

(** C1, as the code has it.  quit on a state with matches runs cancel:
    the panel is hidden, the selection is the empty region at the anchor
    whatever spans the states have selected, and both highlight sets are
    erased. *)
Theorem quit_succeeding_is_cancel (host : Host) (w : World) :
  truthy (StackItem.regions (current w)) = true ->
  quit w = Ok (cancel w)
  /\ View.sel (view (cancel w)) = [Region.mk (point w) (point w)]
  /\ View.marked (view (cancel w)) !! "find"%string = None
  /\ View.marked (view (cancel w)) !! "selected"%string = None
  /\ panel_open (cancel w) = false.
Proof.
  intros Hm. unfold quit. rewrite Hm. split; [reflexivity | ].
  unfold cancel.
  destruct (finish_abort_view (hide_panel w)) as (Hs & Hf & Hsel).
  rewrite Hs, hide_panel_point, finish_panel_open, hide_panel_closed.
  repeat split; assumption.
Qed.

Lemma quit_succeeding_is_cancel_witness :
  quit (host := Sessions.host_ab) Sessions.world_ab
    = Ok (cancel (host := Sessions.host_ab) Sessions.world_ab)
  /\ View.sel (view (cancel (host := Sessions.host_ab) Sessions.world_ab))
     = [Region.mk 3 3]
  /\ View.marked (view (cancel (host := Sessions.host_ab) Sessions.world_ab))
       !! "find"%string = None
  /\ View.marked (view (cancel (host := Sessions.host_ab) Sessions.world_ab))
       !! "selected"%string = None
  /\ panel_open (cancel (host := Sessions.host_ab) Sessions.world_ab) = false.
Proof.
  apply (quit_succeeding_is_cancel Sessions.host_ab Sessions.world_ab).
  reflexivity.
Defined.

(** C1 as stated fails: in the session that typed [ab] the current state
    has three matches and the selected span (3,5), and quit leaves the
    selection at the anchor 3, not at that span. *)
Lemma quit_succeeding_does_not_commit :
  ~ (forall (host : Host) (w w' : World) (si : StackItem.t),
        truthy (StackItem.regions (current w)) = true ->
        not_in_error w = Some si ->
        truthy (deref (heap w) (StackItem.selected si)) = true ->
        quit w = Ok w' ->
        View.sel (view w') = deref (heap w) (StackItem.selected si)).
Proof.
  intros H.
  specialize (H Sessions.host_ab Sessions.world_ab
                (cancel (host := Sessions.host_ab) Sessions.world_ab)
                Sessions.item_ab eq_refl eq_refl eq_refl eq_refl).
  vm_compute in H. discriminate H.
Qed.



End Finish.

(** ** quit on a failing search *)

(** Induction along the chain of predecessors. *)
Lemma chain_ind (P : StackItem.t -> Prop) :
  (forall si, StackItem.prev si = None -> P si) ->
  (forall si p, StackItem.prev si = Some p -> P p -> P si) ->
  forall si, P si.
Proof.
  intros Hroot Hnext si.
  remember (StackItem.depth si) as n eqn:Hn. revert si Hn.
  induction n as [| n IH]; intros si Hn.
  - apply Hroot. destruct si as [[p | ] ? ? ? ? ? ? ?]; [discriminate | reflexivity].
  - destruct si as [[p | ] s r sl i f tw wr]; [ | discriminate ].
    apply (Hnext (StackItem.mk (Some p) s r sl i f tw wr) p eq_refl).
    apply IH. now injection Hn.
Qed.

Lemma root_unfold (si : StackItem.t) :
  root si = match StackItem.prev si with Some p => root p | None => si end.
Proof. now destruct si. Qed.

Lemma nearest_unfold (si : StackItem.t) :
  nearest_with_matches si
  = match StackItem.prev si with
    | Some p => if truthy (StackItem.regions p) then Some p else nearest_with_matches p
    | None => None
    end.
Proof. now destruct si. Qed.

Lemma back_up_unfold (si : StackItem.t) :
  ISearchInfo.back_up si
  = match StackItem.prev si with
    | Some p => if negb (truthy (StackItem.regions p)) then ISearchInfo.back_up p else si
    | None => si
    end.
Proof. now destruct si. Qed.

(** The loop of quit stops right above the nearest state with matches, and
    at the root when no state below has matches. *)
Lemma back_up_spec (si : StackItem.t) :
  match nearest_with_matches si with
  | Some a => StackItem.prev (ISearchInfo.back_up si) = Some a
              /\ truthy (StackItem.regions a) = true
  | None => ISearchInfo.back_up si = root si
            /\ StackItem.prev (root si) = None
            /\ (truthy (StackItem.regions si) = false ->
                truthy (StackItem.regions (root si)) = false)
  end.
Proof.
  induction si as [si Hp | si p Hp IH] using chain_ind;
    rewrite nearest_unfold, back_up_unfold, root_unfold, Hp.
  - auto.
  - destruct (truthy (StackItem.regions p)) eqn:Hm; cbn [negb].
    + auto.
    + destruct (nearest_with_matches p); [exact IH | ].
      destruct IH as (Hb & Hr & Hn). auto.
Qed.

Section Quit.
Import ISearchInfo.

Lemma finish_isearch_info (abort : bool) (w : World) :
  isearch_info (finish abort w) = isearch_info w.
Proof. now rewrite finish_frame. Qed.

(** Hiding an open panel ends the session when the host reports it:
    on_done and on_cancel both clear ViewState.isearch_info. *)
Lemma hide_panel_ends (host : Host) (w : World) :
  panel_open w = true ->
  hide_panel_event <> NoCallback ->
  isearch_info (hide_panel w) = false.
Proof.
  intros Hp He. unfold hide_panel. rewrite Hp.
  destruct hide_panel_event; [congruence | | ];
    unfold on_done, on_cancel;
    destruct (is_active _); rewrite ?finish_isearch_info; reflexivity.
Qed.

(** Without a callback nothing clears it. *)
Lemma hide_panel_silent (host : Host) (w : World) :
  hide_panel_event = NoCallback ->
  isearch_info (hide_panel w) = isearch_info w.
Proof.
  intros He. unfold hide_panel. rewrite He.
  destruct (panel_open w); reflexivity.
Qed.

(** C8. quit on a state without matches.  When a state below has
    matches, the session moves to the nearest such state and stays open:
    panel, selection and the session flags are as before, and the input
    line shows the query of that state.  When none has, the chain is
    unwound to the root and cancel runs: the panel is closed, the
    selection is the empty region at the anchor, and the session is
    over: ViewState.isearch_info is cleared by the callback the host
    runs when the open panel is hidden, on_done or on_cancel, which is
    the only code that clears it; a host that ran no callback would leave
    it set. *)
Theorem quit_failing (host : Host) (w : World) :
  truthy (StackItem.regions (current w)) = false ->
  0 <= in_changes w ->
  match nearest_with_matches (current w) with
  | Some a =>
      truthy (StackItem.regions a) = true
      /\ exists w',
          quit w = Ok w'
          /\ current w' = a
          /\ panel_open w' = panel_open w
          /\ isearch_info w' = isearch_info w
          /\ is_active w' = is_active w
          /\ View.sel (view w') = View.sel (view w)
          /\ input_text w' = StackItem.search a
          /\ forward w' = StackItem.forward a
          /\ in_changes w' = in_changes w
          /\ heap w' = heap w
  | None =>
      let w0 := set_current (root (current w)) w in
      truthy (StackItem.regions (root (current w))) = false
      /\ quit w = Ok (cancel w0)
      /\ View.sel (view (cancel w0)) = [Region.mk (point w) (point w)]
      /\ View.marked (view (cancel w0)) !! "find"%string = None
      /\ View.marked (view (cancel w0)) !! "selected"%string = None
      /\ panel_open (cancel w0) = false
      /\ (panel_open w = true -> hide_panel_event <> NoCallback ->
          isearch_info (cancel w0) = false)
      /\ (hide_panel_event = NoCallback ->
          isearch_info (cancel w0) = isearch_info w)
  end.
Proof.
  intros Hfail Hic. pose proof (back_up_spec (current w)) as Hb.
  unfold quit. rewrite Hfail.
  destruct (nearest_with_matches (current w)) as [a | ].
  - destruct Hb as [Hprev Hm]. split; [exact Hm | ].
    cbn [current set_current]. rewrite Hprev.
    unfold pop. cbn [current set_current]. rewrite Hprev.
    unfold set_text, on_change. cbn [in_changes set_in_changes set_input_text].
    assert (Hpos : (0 <? in_changes w + 1) = true) by (apply Z.ltb_lt; lia).
    change (in_changes (set_current a (set_current (back_up (current w)) w)))
      with (in_changes w).
    rewrite Hpos. cbn [mbind result_bind].
    eexists. split; [reflexivity | ].
    rewrite update_sel. rewrite update_frame.
    destruct w; cbn in *. repeat split; try reflexivity. lia.
  - destruct Hb as (Hroot & Hnone & Hr). cbn zeta.
    split; [now apply Hr | ].
    cbn [current set_current]. rewrite Hroot, Hnone.
    split; [reflexivity | ].
    unfold cancel.
    destruct (finish_abort_view (hide_panel (set_current (root (current w)) w)))
      as (Hs & Hf & Hsel).
    rewrite Hs, hide_panel_point, finish_panel_open, hide_panel_closed.
    rewrite finish_isearch_info.
    split; [reflexivity | ]. split; [assumption | ]. split; [assumption | ].
    split; [reflexivity | ]. split.
    + intros Hp He. apply hide_panel_ends; [exact Hp | exact He].
    + intros He. rewrite hide_panel_silent by exact He. reflexivity.
Qed.

End Quit.

(** ** Stepping at the boundary *)

Section Wrap.
Import ISearchInfo.

Lemma set_heap_same (w : World) (x : StackItem.t) :
  set_heap (heap w) (set_current x w) = set_current x w.
Proof. now destruct w. Qed.

(** The test that opens the wrap branch of step. *)
Lemma at_boundary_test (self : StackItem.t) (d : bool) :
  0 < len (StackItem.regions self) ->
  (StackItem.current_index self < 0
   \/ (StackItem.current_index self = 0 /\ d = false)
   \/ (StackItem.current_index self = len (StackItem.regions self) - 1 /\ d = true)) ->
  truthy (StackItem.regions self)
  && ((StackItem.current_index self <? 0)
      || ((StackItem.current_index self =? 0) && negb d)
      || ((StackItem.current_index self =? len (StackItem.regions self) - 1) && d))
  = true.
Proof.
  intros Hm Hb. apply truthy_len in Hm. rewrite Hm. cbn [andb].
  destruct Hb as [Hb | [[Hb ->] | [Hb ->]]].
  - apply Z.ltb_lt in Hb. now rewrite Hb.
  - apply Z.eqb_eq in Hb. rewrite Hb. cbn. now rewrite orb_true_r.
  - apply Z.eqb_eq in Hb. rewrite Hb. cbn. now rewrite !orb_true_r.
Qed.

(** C3, as the code has it.  On a state with matches whose active index
    is at the boundary in the direction of travel and whose pending-wrap
    flag is clear, next pushes nothing and changes nothing but that flag;
    the same call again pushes a state with index 0 (forward) or m-1
    (backward) that is marked wrapped and has the flag clear, on top of
    the old state with its flag cleared again.  The flag is one flag for
    both directions: a state on which it is set already, by a step
    attempt in either direction, is wrapped by the first call.  The root,
    which __init__ builds, has no matches. *)
Theorem two_phase_wrap (host : Host) (w : World) (keep : bool) (fwd : option bool) :
  let cur := current w in
  let d := default (StackItem.forward cur) fwd in
  let m := len (StackItem.regions cur) in
  StackItem.regions (root cur) = [] ->
  0 < m ->
  (StackItem.current_index cur < 0
   \/ (StackItem.current_index cur = 0 /\ d = false)
   \/ (StackItem.current_index cur = m - 1 /\ d = true)) ->
  StackItem.try_wrapped cur = false ->
  let armed := set_current (StackItem.set_try_wrapped true cur) w in
  next keep fwd w = Ok armed
  /\ exists w2,
      next keep fwd armed = Ok w2
      /\ StackItem.prev (current w2) = Some cur
      /\ StackItem.current_index (current w2) = (if d then 0 else m - 1)
      /\ StackItem.wrapped (current w2) = true
      /\ StackItem.try_wrapped (current w2) = false
      /\ StackItem.forward (current w2) = d
      /\ StackItem.regions (current w2) = StackItem.regions cur
      /\ StackItem.search (current w2) = StackItem.search cur.
Proof.
  intros cur d m Hroot Hm Hb Htw armed.
  assert (Hprev : exists p, StackItem.prev cur = Some p).
  { destruct (StackItem.prev cur) as [p | ] eqn:Hp; [eauto | exfalso].
    rewrite root_unfold, Hp in Hroot. unfold m in Hm. rewrite Hroot in Hm.
    unfold len in Hm. simpl in Hm. lia. }
  destruct Hprev as [p Hp].
  pose proof (at_boundary_test cur d Hm Hb) as Htest.
  assert (Htr : truthy (StackItem.regions cur) = true) by now apply truthy_len.
  split.
  - unfold next. fold cur. rewrite Hp. fold d.
    unfold StackItem.step. rewrite Htest, Htw, Htr. cbn [orb negb mbind result_bind].
    unfold armed, cur. now rewrite set_heap_same.
  - unfold next, armed. cbn [current set_current].
    replace (StackItem.prev (StackItem.set_try_wrapped true cur)) with (Some p)
      by (now destruct cur; cbn in *).
    replace (StackItem.forward (StackItem.set_try_wrapped true cur))
      with (StackItem.forward cur) by (now destruct cur).
    fold d. unfold StackItem.step.
    replace (StackItem.regions (StackItem.set_try_wrapped true cur))
      with (StackItem.regions cur) by (now destruct cur).
    replace (StackItem.current_index (StackItem.set_try_wrapped true cur))
      with (StackItem.current_index cur) by (now destruct cur).
    replace (StackItem.try_wrapped (StackItem.set_try_wrapped true cur))
      with true by (now destruct cur).
    rewrite Htest. cbn [orb]. rewrite set_try_wrapped_twice.
    replace (StackItem.set_try_wrapped false cur) with cur
      by (rewrite <- Htw; symmetry; apply set_try_wrapped_id).
    assert (Hidx : 0 <= (if d then 0 else len (StackItem.regions cur) - 1)
                   < len (StackItem.regions cur))
      by (fold m; destruct d; lia).
    destruct (step_new_spec cur _ d keep true (heap w) Hidx) as (B & HB & Hnew).
    change (heap (set_current (StackItem.set_try_wrapped true cur) w)) with (heap w).
    rewrite Hnew. cbn [mbind result_bind].
    eexists. split; [reflexivity | ].
    rewrite update_current. cbn. repeat split; reflexivity.
Qed.

End Wrap.

(** ** find_closest *)

Section Closest.
Import ISearchInfo.

(** The forward loop: the first region ending at or after [pos]. *)
Lemma closest_forward_spec (regions : list Region.t) (pos k : Z) :
  (closest_forward regions pos k = -1
   /\ forall r, r ∈ regions -> Region.end_ r < pos)
  \/ (exists (i : nat) (r : Region.t),
         closest_forward regions pos k = k + Z.of_nat i
         /\ regions !! i = Some r
         /\ pos <= Region.end_ r
         /\ forall (j : nat) (r' : Region.t),
             (j < i)%nat -> regions !! j = Some r' -> Region.end_ r' < pos).
Proof.
  revert k. induction regions as [| r rest IH]; intros k; cbn [closest_forward].
  - left. split; [reflexivity | ]. intros r Hr. inversion Hr.
  - destruct (pos <=? Region.end_ r) eqn:E.
    + right. exists O, r. apply Z.leb_le in E.
      repeat split; [lia | exact E | intros j r' Hj; lia].
    + apply Z.leb_gt in E.
      destruct (IH (k + 1)) as [[Hm Hall] | (i & r0 & Hi & Hl & Hp & Hbefore)].
      * left. split; [exact Hm | ].
        intros r' Hr'. apply elem_of_cons in Hr' as [-> | Hr']; auto.
      * right. exists (S i), r0. repeat split; [lia | exact Hl | exact Hp | ].
        intros [| j] r' Hj Hr'; cbn in Hr'.
        -- injection Hr' as <-. exact E.
        -- apply (Hbefore j); [lia | exact Hr'].
Qed.

(** The backward loop: one less than the position of the first region
    beginning after [pos], and [last] when there is none. *)
Lemma closest_backward_spec (regions : list Region.t) (pos k last : Z) :
  (closest_backward regions pos k last = last
   /\ forall r, r ∈ regions -> Region.begin r <= pos)
  \/ (exists (n : nat) (r : Region.t),
         closest_backward regions pos k last = k + Z.of_nat n - 1
         /\ regions !! n = Some r
         /\ pos < Region.begin r
         /\ forall (j : nat) (r' : Region.t),
             (j < n)%nat -> regions !! j = Some r' -> Region.begin r' <= pos).
Proof.
  revert k. induction regions as [| r rest IH]; intros k; cbn [closest_backward].
  - left. split; [reflexivity | ]. intros r Hr. inversion Hr.
  - destruct (pos <? Region.begin r) eqn:E.
    + right. exists O, r. apply Z.ltb_lt in E.
      repeat split; [lia | exact E | intros j r' Hj; lia].
    + apply Z.ltb_ge in E.
      destruct (IH (k + 1)) as [[Hm Hall] | (n & r0 & Hn & Hl & Hp & Hbefore)].
      * left. split; [exact Hm | ].
        intros r' Hr'. apply elem_of_cons in Hr' as [-> | Hr']; auto.
      * right. exists (S n), r0. repeat split; [lia | exact Hl | exact Hp | ].
        intros [| j] r' Hj Hr'; cbn in Hr'.
        -- injection Hr' as <-. exact E.
        -- apply (Hbefore j); [lia | exact Hr'].
Qed.

(** The result is the sentinel or an index of the list. *)
Lemma find_closest_range (regions : list Region.t) (pos : Z) (forward : bool) :
  -1 <= find_closest regions pos forward < len regions.
Proof.
  unfold find_closest. destruct (len regions =? 0) eqn:E0.
  - apply Z.eqb_eq in E0. lia.
  - apply Z.eqb_neq in E0. assert (0 < len regions) by (unfold len in *; lia).
    destruct forward.
    + destruct (closest_forward_spec regions pos 0)
        as [[-> _] | (i & r & -> & Hl & _)]; [lia | ].
      apply lookup_lt_Some in Hl. unfold len. lia.
    + destruct (closest_backward_spec regions pos 0 (len regions - 1))
        as [[-> _] | (n & r & -> & Hl & _)]; [lia | ].
      apply lookup_lt_Some in Hl. unfold len. lia.
Qed.

(** C7. On a sorted match list, forward search returns the index of the
    first match that ends at or after the anchor, backward search the
    index of the last match that begins at or before it, and both return
    the sentinel -1 exactly when there is no such match. *)
Theorem find_closest_spec (regions : list Region.t) (pos : Z) :
  sorted_by_begin regions ->
  ((find_closest regions pos true = -1
    /\ forall r, r ∈ regions -> Region.end_ r < pos)
   \/ exists (i : nat) (r : Region.t),
       find_closest regions pos true = Z.of_nat i
       /\ regions !! i = Some r
       /\ pos <= Region.end_ r
       /\ forall (j : nat) (r' : Region.t),
           (j < i)%nat -> regions !! j = Some r' -> Region.end_ r' < pos)
  /\
  ((find_closest regions pos false = -1
    /\ forall r, r ∈ regions -> pos < Region.begin r)
   \/ exists (i : nat) (r : Region.t),
       find_closest regions pos false = Z.of_nat i
       /\ regions !! i = Some r
       /\ Region.begin r <= pos
       /\ forall (j : nat) (r' : Region.t),
           (i < j)%nat -> regions !! j = Some r' -> pos < Region.begin r').
Proof.
  intros Hsorted. unfold find_closest.
  destruct (len regions =? 0) eqn:E0.
  - apply Z.eqb_eq in E0. destruct regions; [ | discriminate E0 ].
    split; left; (split; [reflexivity | intros r Hr; inversion Hr]).
  - apply Z.eqb_neq in E0. split.
    + destruct (closest_forward_spec regions pos 0)
        as [[Hm Hall] | (i & r & Hi & Hl & Hp & Hbefore)].
      * left. auto.
      * right. exists i, r. repeat split; [lia | exact Hl | exact Hp | exact Hbefore].
    + destruct (closest_backward_spec regions pos 0 (len regions - 1))
        as [[Hm Hall] | (n & r & Hn & Hl & Hp & Hbefore)].
      * (* no match begins after the anchor: the last match is the one *)
        right. assert (Hlen : (0 < List.length regions)%nat)
          by (unfold len in E0; lia).
        destruct (lookup_lt_is_Some_2 regions (List.length regions - 1))
          as [r Hr]; [lia | ].
        exists (List.length regions - 1)%nat, r.
        repeat split.
        -- rewrite Hm. unfold len. lia.
        -- exact Hr.
        -- apply Hall. eapply list_elem_of_lookup_2. exact Hr.
        -- intros j r' Hj Hr'. apply lookup_lt_Some in Hr'. lia.
      * destruct n as [| n].
        -- (* the first match already begins after the anchor *)
           left. split; [lia | ].
           intros r' Hr'. apply list_elem_of_lookup in Hr' as [j Hj].
           pose proof (Hsorted O j r r' Hl Hj ltac:(lia)). lia.
        -- right.
           destruct (lookup_lt_is_Some_2 regions n) as [r0 Hr0];
             [apply lookup_lt_Some in Hl; lia | ].
           exists n, r0. repeat split.
           ++ lia.
           ++ exact Hr0.
           ++ apply (Hbefore n); [lia | exact Hr0].
           ++ intros j r' Hj Hr'.
              pose proof (Hsorted (S n) j r r' Hl Hr' ltac:(lia)). lia.
Qed.

Lemma find_closest_spec_witness :
  let regions := [Region.mk 0 2; Region.mk 3 5; Region.mk 6 8] in
  sorted_by_begin regions
  /\ ((find_closest regions 3 true = -1
       /\ forall r, r ∈ regions -> Region.end_ r < 3)
      \/ exists (i : nat) (r : Region.t),
          find_closest regions 3 true = Z.of_nat i
          /\ regions !! i = Some r
          /\ 3 <= Region.end_ r
          /\ forall (j : nat) (r' : Region.t),
              (j < i)%nat -> regions !! j = Some r' -> Region.end_ r' < 3)
  /\ ((find_closest regions 3 false = -1
       /\ forall r, r ∈ regions -> 3 < Region.begin r)
      \/ exists (i : nat) (r : Region.t),
          find_closest regions 3 false = Z.of_nat i
          /\ regions !! i = Some r
          /\ Region.begin r <= 3
          /\ forall (j : nat) (r' : Region.t),
              (i < j)%nat -> regions !! j = Some r' -> 3 < Region.begin r').
Proof.
  intros regions.
  assert (Hs : sorted_by_begin regions).
  { intros i j ri rj Hi Hj Hij.
    destruct i as [| [| [| i]]]; destruct j as [| [| [| j]]];
      cbn in Hi, Hj; try discriminate; try lia;
      injection Hi as <-; injection Hj as <-; apply Z.leb_le; reflexivity. }
  split; [exact Hs | ].
  exact (find_closest_spec regions 3 Hs).
Defined.

End Closest.

(** ** find *)

Section Find.
Import ISearchInfo.
Context {host : Host}.

(** get_point on a node that satisfies the data-model invariant. *)
Lemma get_point_wf (si : StackItem.t) :
  wf_item si ->
  (StackItem.current_index si = -1 /\ StackItem.get_point si = Ok None)
  \/ (exists r,
         0 <= StackItem.current_index si
         /\ StackItem.regions si !! Z.to_nat (StackItem.current_index si) = Some r
         /\ StackItem.get_point si
            = Ok (Some (if StackItem.forward si then Region.begin r
                        else Region.end_ r))).
Proof.
  intros Hwf. unfold wf_item in Hwf. unfold StackItem.get_point.
  destruct (0 <=? StackItem.current_index si) eqn:E.
  - apply Z.leb_le in E. right.
    destruct (getitem_in_range (StackItem.regions si) (StackItem.current_index si))
      as (r & Hl & Hg); [lia | ].
    exists r. rewrite Hg. auto.
  - apply Z.leb_gt in E. left. split; [lia | reflexivity].
Qed.

(** What find does with a query that is not empty: one node is pushed,
    with a list object of its own that holds the active match and
    nothing else. *)
Lemma find_nonempty (w : World) (val : string) (p : option Z) :
  0 < str_len val ->
  StackItem.get_point (current w) = Ok p ->
  let regions := find_all val (find_flags (regex w) val) in
  let index := find_closest regions (default (point w) p) (forward w) in
  let l := fresh (dom (heap w)) in
  find val w
  = Ok (update
          (push (StackItem.mk None val regions l index (forward w) false
                   (StackItem.wrapped (current w)))
             (set_heap (<[l := active_span regions index]> (heap w)) w))).
Proof.
  intros Hlen Hgp regions index l.
  unfold find. apply Z.ltb_lt in Hlen. rewrite Hlen, Hgp.
  cbn [mbind result_bind]. fold regions. fold index.
  unfold new_list. fold l. unfold StackItem.init, active_span.
  pose proof (find_closest_range regions (default (point w) p) (forward w)) as Hr.
  fold index in Hr.
  destruct (0 <=? index) eqn:E.
  - apply Z.leb_le in E.
    destruct (getitem_in_range regions index) as (r & Hl & Hg); [lia | ].
    assert (Htr : truthy regions = true) by (apply truthy_len; lia).
    rewrite Htr, Hg, Hl. cbn [andb mbind result_bind].
    unfold append. rewrite deref_insert, insert_insert_eq. reflexivity.
  - reflexivity.
Qed.

(** C2, as the code has it.  find with a query that is not empty pushes a
    state whose selected list is a new list, not a copy of the previous
    state's: it is empty when the closest-match index is the sentinel and
    holds the newly active match alone otherwise.  No list that existed
    before the call is changed, the previous state's included. *)
Theorem find_selected_starts_afresh (w : World) (val : string) :
  0 < str_len val ->
  wf_item (current w) ->
  exists w',
    find val w = Ok w'
    /\ StackItem.prev (current w') = Some (current w)
    /\ (StackItem.selected (current w') ∉ dom (heap w))
    /\ (StackItem.current_index (current w') = -1 ->
        heap w' !! StackItem.selected (current w') = Some [])
    /\ (StackItem.current_index (current w') <> -1 ->
        exists r,
          StackItem.regions (current w')
            !! Z.to_nat (StackItem.current_index (current w')) = Some r
          /\ heap w' !! StackItem.selected (current w') = Some [r])
    /\ (forall l, l ∈ dom (heap w) -> heap w' !! l = heap w !! l).
Proof.
  intros Hlen Hwf.
  assert (Hgp : exists p, StackItem.get_point (current w) = Ok p)
    by (destruct (get_point_wf _ Hwf) as [[_ H] | (r & _ & _ & H)]; eauto).
  destruct Hgp as [p Hgp].
  rewrite (find_nonempty w val p Hlen Hgp).
  eexists. split; [reflexivity | ].
  rewrite update_current, update_heap.
  cbn [current heap push set_current set_heap StackItem.set_prev StackItem.prev
       StackItem.selected StackItem.current_index StackItem.regions
       StackItem.search StackItem.forward StackItem.try_wrapped StackItem.wrapped].
  set (regions := find_all val (find_flags (regex w) val)).
  set (index := find_closest regions (default (point w) p) (forward w)).
  pose proof (find_closest_range regions (default (point w) p) (forward w)) as Hr.
  fold index in Hr.
  split; [reflexivity | ].
  split; [apply is_fresh | ].
  rewrite lookup_insert_eq. unfold active_span.
  split; [ | split ].
  - intros ->. reflexivity.
  - intros Hne.
    destruct (getitem_in_range regions index) as (r & Hl & _); [lia | ].
    exists r. split; [exact Hl | ].
    assert (E : (0 <=? index) = true) by (apply Z.leb_le; lia).
    now rewrite E, Hl.
  - intros l Hl. now apply insert_fresh_old.
Qed.

(** C5, as the code has it.  The anchor find hands to find_closest is
    the begin of the active match of the current state when that state
    searches forward and its end when it searches backward, and the
    anchor point of the session when the current state has no active
    match. *)
Theorem find_anchor (w : World) (val : string) :
  0 < str_len val ->
  wf_item (current w) ->
  let cur := current w in
  let regions := find_all val (find_flags (regex w) val) in
  exists w' anchor,
    find val w = Ok w'
    /\ StackItem.current_index (current w')
       = find_closest regions anchor (forward w)
    /\ (StackItem.current_index cur = -1 -> anchor = point w)
    /\ (forall r,
           0 <= StackItem.current_index cur ->
           StackItem.regions cur !! Z.to_nat (StackItem.current_index cur) = Some r ->
           anchor = if StackItem.forward cur then Region.begin r else Region.end_ r).
Proof.
  intros Hlen Hwf cur regions.
  destruct (get_point_wf _ Hwf) as [[Hi Hgp] | (r & Hi & Hl & Hgp)];
    rewrite (find_nonempty w val _ Hlen Hgp); cbn [default];
    eexists; eexists; (split; [reflexivity | ]);
    rewrite update_current;
    (split; [reflexivity | ]); fold cur in Hi |- *.
  - split; [reflexivity | ]. intros r H0. lia.
  - fold cur in Hl. split; [lia | ].
    intros r' _ Hl'. rewrite Hl in Hl'. now injection Hl' as <-.
Qed.

(** The match list of the state find pushes is what the host finds with
    the flags find computes. *)
Lemma find_regions (w : World) (val : string) :
  0 < str_len val ->
  wf_item (current w) ->
  exists w',
    find val w = Ok w'
    /\ StackItem.search (current w') = val
    /\ StackItem.regions (current w') = find_all val (find_flags (regex w) val).
Proof.
  intros Hlen Hwf.
  destruct (get_point_wf _ Hwf) as [[_ Hgp] | (r & _ & _ & Hgp)];
    rewrite (find_nonempty w val _ Hlen Hgp);
    eexists; (split; [reflexivity | ]); rewrite update_current; split; reflexivity.
Qed.

Lemma land_lor_same (x y : Z) : Z.land (Z.lor x y) y = y.
Proof.
  apply Z.bits_inj'. intros n _. rewrite Z.land_spec, Z.lor_spec.
  destruct (Z.testbit x n), (Z.testbit y n); reflexivity.
Qed.

(** C9, as the code has it.  The flags find searches with carry
    IGNORECASE exactly when the query has no character in A-Z, with and
    without LITERAL, whatever else the session holds; these are the flags
    the matches of the pushed state are found with.  An upper-case letter
    outside A-Z does not make the search case-sensitive.  The two flag
    constants of the host are distinct bits. *)
Theorem case_inferred_from_query (regex : bool) (val : string) :
  IGNORECASE <> 0 ->
  Z.land LITERAL IGNORECASE = 0 ->
  (Z.land (find_flags regex val) IGNORECASE <> IGNORECASE
   <-> exists c, In c (list_ascii_of_string val)
                 /\ (65 <= nat_of_ascii c <= 90)%nat)
  /\ (forall w, ISearchInfo.regex w = regex -> 0 < str_len val ->
                wf_item (current w) ->
                exists w',
                  find val w = Ok w'
                  /\ StackItem.regions (current w')
                     = find_all val (find_flags regex val)).
Proof.
  intros Hne Hdisj. split.
  - unfold find_flags, re_search_AZ.
    destruct (existsb is_AZ (list_ascii_of_string val)) eqn:E; cbn [negb].
    + split; [intros _ | intros _].
      * apply existsb_exists in E as (c & Hc & Haz). exists c. split; [exact Hc | ].
        unfold is_AZ in Haz. apply andb_true_iff in Haz as [H1 H2].
        apply Z.leb_le in H1, H2. lia.
      * destruct regex; [rewrite Z.land_0_l; congruence | rewrite Hdisj; congruence].
    + split.
      * intros H. exfalso. apply H. apply land_lor_same.
      * intros (c & Hc & Haz). exfalso.
        assert (existsb is_AZ (list_ascii_of_string val) = true); [ | congruence].
        apply existsb_exists. exists c. split; [exact Hc | ].
        unfold is_AZ. apply andb_true_iff. split; apply Z.leb_le; lia.
  - intros w <- Hlen Hwf.
    destruct (find_regions w val Hlen Hwf) as (w' & Hf & _ & Hr). eauto.
Qed.

End Find.

(** ** The theorems on the example sessions *)

Section OnExamples.
Import ISearchInfo.

Lemma step_keep_or_replace_witness :
  exists B,
    0 <= 2
    /\ Sessions.regions_ab !! Z.to_nat 2 = Some B
    /\ <[2%nat := [Region.mk 3 5; Region.mk 6 8]]> (heap Sessions.world_ab) !! 2%nat
       = Some ([] ++ [Region.mk 3 5; B])
    /\ 2%nat <> 1%nat
    /\ 1%nat = 1%nat
    /\ <[2%nat := [Region.mk 3 5; Region.mk 6 8]]> (heap Sessions.world_ab) !! 1%nat
       = Some ([] ++ [Region.mk 3 5])
    /\ (forall l, l ∈ dom (heap Sessions.world_ab) ->
                  <[2%nat := [Region.mk 3 5; Region.mk 6 8]]> (heap Sessions.world_ab) !! l
                  = heap Sessions.world_ab !! l).
Proof.
  apply (step_keep_or_replace Sessions.item_ab Sessions.item_ab
           (StackItem.mk None "ab" Sessions.regions_ab 2%nat 2 true false false)
           true true (heap Sessions.world_ab)
           (<[2%nat := [Region.mk 3 5; Region.mk 6 8]]> (heap Sessions.world_ab))
           [] (Region.mk 3 5)).
  - unfold wf_item. vm_compute. split; [discriminate | reflexivity].
  - vm_compute. reflexivity.
  - vm_compute. reflexivity.
Defined.

Lemma two_phase_wrap_witness :
  next (host := Sessions.host_ab) true None Sessions.world_ab_end
  = Ok (set_current (StackItem.set_try_wrapped true (current Sessions.world_ab_end))
          Sessions.world_ab_end)
  /\ exists w2,
      next (host := Sessions.host_ab) true None
        (set_current (StackItem.set_try_wrapped true (current Sessions.world_ab_end))
           Sessions.world_ab_end) = Ok w2
      /\ StackItem.current_index (current w2) = 0
      /\ StackItem.wrapped (current w2) = true
      /\ StackItem.try_wrapped (current w2) = false.
Proof.
  destruct (two_phase_wrap Sessions.host_ab Sessions.world_ab_end true None)
    as (H1 & w2 & H2 & _ & Hi & Hw & Ht & _).
  - reflexivity.
  - vm_compute. reflexivity.
  - right. right. split; reflexivity.
  - reflexivity.
  - split; [exact H1 | ]. exists w2. auto.
Defined.

Lemma quit_failing_witness :
  (exists w',
      quit (host := Sessions.host_ab) Sessions.world_abz = Ok w'
      /\ current w' = Sessions.item_ab
      /\ panel_open w' = true
      /\ isearch_info w' = true
      /\ View.sel (view w') = [Region.mk 3 3]
      /\ input_text w' = "ab"%string)
  /\ (let w0 := set_current Sessions.root_fwd MoreSessions.world_z in
      quit (host := Sessions.host_ab) MoreSessions.world_z
      = Ok (cancel (host := Sessions.host_ab) w0)
      /\ View.sel (view (cancel (host := Sessions.host_ab) w0)) = [Region.mk 3 3]
      /\ panel_open (cancel (host := Sessions.host_ab) w0) = false
      /\ isearch_info (cancel (host := Sessions.host_ab) w0) = false).
Proof.
  split.
  - pose proof (quit_failing Sessions.host_ab Sessions.world_abz eq_refl) as H.
    change (nearest_with_matches (current Sessions.world_abz))
      with (Some Sessions.item_ab) in H.
    destruct H as (_ & w' & Hq & Hc & Hp & Hi & _ & Hs & Ht & _).
    + vm_compute. discriminate.
    + exists w'. split; [exact Hq | ]. split; [exact Hc | ]. split; [exact Hp | ].
      split; [exact Hi | ]. split; [exact Hs | exact Ht].
  - pose proof (quit_failing Sessions.host_ab MoreSessions.world_z eq_refl) as H.
    change (nearest_with_matches (current MoreSessions.world_z))
      with (@None StackItem.t) in H.
    change (root (current MoreSessions.world_z)) with Sessions.root_fwd in H.
    destruct H as (_ & Hq & Hs & _ & _ & Hp & He & _).
    + vm_compute. discriminate.
    + cbn zeta. split; [exact Hq | ]. split; [exact Hs | ]. split; [exact Hp | ].
      apply He; [reflexivity | discriminate].
Defined.

Lemma find_selected_starts_afresh_witness :
  exists w',
    find (host := Sessions.host_ab) "ab " Sessions.world_ab = Ok w'
    /\ StackItem.prev (current w') = Some Sessions.item_ab
    /\ (forall l, l ∈ dom (heap Sessions.world_ab) ->
                  heap w' !! l = heap Sessions.world_ab !! l).
Proof.
  destruct (find_selected_starts_afresh (host := Sessions.host_ab)
              Sessions.world_ab "ab ") as (w' & Hf & Hp & _ & _ & _ & Hall).
  - vm_compute. reflexivity.
  - unfold wf_item. vm_compute. split; [discriminate | reflexivity].
  - exists w'. auto.
Defined.

(** C2 as stated fails: in the session that typed [ab] the selected list
    is [(3,5)]; typing a blank makes (0,3) the active match, and the
    pushed state's list is [(0,3)], not [(3,5); (0,3)]. *)
Lemma find_does_not_carry_selected :
  ~ (forall (host : Host) (w w' : World) (val : string)
            (old : list Region.t) (r : Region.t),
        0 < str_len val ->
        heap w !! StackItem.selected (current w) = Some old ->
        find val w = Ok w' ->
        StackItem.regions (current w')
          !! Z.to_nat (StackItem.current_index (current w')) = Some r ->
        heap w' !! StackItem.selected (current w') = Some (old ++ [r])).
Proof.
  intros H.
  destruct (find (host := Sessions.host_ab) "ab " Sessions.world_ab)
    as [w' | ] eqn:E; [ | vm_compute in E; discriminate E ].
  specialize (H Sessions.host_ab Sessions.world_ab w' "ab "%string
                [Region.mk 3 5] (Region.mk 0 3) eq_refl eq_refl E).
  vm_compute in E. injection E as <-.
  specialize (H eq_refl). vm_compute in H. discriminate H.
Qed.

Lemma find_anchor_witness :
  exists w',
    find (host := Sessions.host_ab) "ab " Sessions.world_ab = Ok w'
    /\ StackItem.current_index (current w')
       = find_closest [Region.mk 0 3; Region.mk 3 6] 3 true.
Proof.
  destruct (find_anchor (host := Sessions.host_ab) Sessions.world_ab "ab ")
    as (w' & anchor & Hf & Hi & _ & Ha).
  - vm_compute. reflexivity.
  - unfold wf_item. vm_compute. split; [discriminate | reflexivity].
  - exists w'. split; [exact Hf | ].
    rewrite (Ha (Region.mk 3 5)) in Hi.
    + exact Hi.
    + vm_compute. discriminate.
    + reflexivity.
Defined.

(** C5 as stated fails: in the session that typed [ab], searching
    forward with the active match (3,5), typing a blank gives the matches
    (0,3) and (3,6).  The code searches from the begin 3 of the active
    match and lands on index 0; searching from its end 5 would give
    index 1. *)
Lemma find_anchor_is_not_the_end :
  ~ (forall (host : Host) (w w' : World) (val : string) (r : Region.t),
        0 < str_len val ->
        0 <= StackItem.current_index (current w) ->
        StackItem.regions (current w)
          !! Z.to_nat (StackItem.current_index (current w)) = Some r ->
        find val w = Ok w' ->
        StackItem.current_index (current w')
        = find_closest (find_all val (find_flags (regex w) val))
            (if forward w then Region.end_ r else Region.begin r) (forward w)).
Proof.
  intros H.
  destruct (find (host := Sessions.host_ab) "ab " Sessions.world_ab)
    as [w' | ] eqn:E; [ | vm_compute in E; discriminate E ].
  specialize (H Sessions.host_ab Sessions.world_ab w' "ab "%string
                (Region.mk 3 5) eq_refl).
  vm_compute in E. injection E as <-.
  assert (H0 : 0 <= StackItem.current_index (current Sessions.world_ab))
    by (vm_compute; discriminate).
  specialize (H H0 eq_refl eq_refl). vm_compute in H. discriminate H.
Qed.

Lemma case_inferred_from_query_witness :
  (Z.land (find_flags (host := Sessions.host_ab) false "Foo") 2 <> 2
   <-> exists c, In c (list_ascii_of_string "Foo")
                 /\ (65 <= nat_of_ascii c <= 90)%nat)
  /\ find_flags (host := Sessions.host_ab) false "Foo" = 1
  /\ find_flags (host := Sessions.host_ab) false "foo" = 3.
Proof.
  destruct (case_inferred_from_query (host := Sessions.host_ab) false "Foo")
    as [H _].
  - vm_compute. discriminate.
  - reflexivity.
  - split; [exact H | split; reflexivity].
Defined.

(** The example of the case inference: [Foo foo FOO] has three matches
    of [foo] and one of [Foo]. *)
Example case_inference_example :
  let host := BufferHost.make "Foo foo FOO" CallsOnCancel in
  find_all "foo" (find_flags false "foo")
    = [Region.mk 0 3; Region.mk 4 7; Region.mk 8 11]
  /\ find_all "Foo" (find_flags false "Foo") = [Region.mk 0 3].
Proof. split; reflexivity. Qed.

(** The example of the closest match: anchor 3 in [ab ab ab], forward:
    the match at offset 3. *)
Example closest_match_example :
  find_closest Sessions.regions_ab 3 true = 1.
Proof. reflexivity. Qed.

(** C10 on [FOO bar] with an empty query: the query has no upper-case
    letter, and the first character taken from the buffer is appended as
    it is while the following ones are folded.  The query grows to
    [Foo], which is searched case-sensitively and does not match the
    text it was taken from. *)
Theorem append_from_cursor_first_char_unfolded :
  re_search_AZ (StackItem.search (current Sessions.world_FOO)) = false
  /\ exists w',
      append_from_cursor (host := Sessions.host_FOO) Sessions.world_FOO = Ok w'
      /\ StackItem.search (current w') = "Foo"%string
      /\ StackItem.search (current w') <> "foo"%string
      /\ StackItem.regions (current w') = []
      /\ input_text w' = "Foo"%string.
Proof.
  split; [reflexivity | ].
  destruct (append_from_cursor (host := Sessions.host_FOO) Sessions.world_FOO)
    as [w' | ] eqn:E; [ | vm_compute in E; discriminate E ].
  exists w'. split; [reflexivity | ].
  vm_compute in E. injection E as <-.
  repeat split; try reflexivity. discriminate.
Qed.

(** The sessions of [MoreSessions] are sessions the code reaches. *)
Example world_one_armed_reached :
  (w ← start (BufferHost.view_at 0) ∅ None true false;
   run_calls (host := MoreSessions.host_one) [OnChange "ab"; Next true None] w)
  = Ok MoreSessions.world_one_armed.
Proof. vm_compute. reflexivity. Qed.

Example world_z_reached :
  (w ← start (BufferHost.view_at 3) ∅ None true false;
   run_calls (host := Sessions.host_ab) [OnChange "z"] w)
  = Ok MoreSessions.world_z.
Proof. vm_compute. reflexivity. Qed.

(** C3 as stated fails: it is the statement of [two_phase_wrap] without
    the hypothesis on the pending-wrap flag.  In the buffer [ab] the query
    [ab] has one match, which is the first and the last.  Repeating the
    search forward sets the flag.  The search is then repeated backward,
    for the first time in that direction and again at the boundary: step
    finds the flag set and pushes the wrapped state at once. *)
Lemma reversed_step_wraps_at_once :
  ~ (forall (host : Host) (w : World) (keep : bool) (fwd : option bool),
        let cur := current w in
        let d := default (StackItem.forward cur) fwd in
        let m := len (StackItem.regions cur) in
        StackItem.regions (root cur) = [] ->
        0 < m ->
        (StackItem.current_index cur < 0
         \/ (StackItem.current_index cur = 0 /\ d = false)
         \/ (StackItem.current_index cur = m - 1 /\ d = true)) ->
        let armed := set_current (StackItem.set_try_wrapped true cur) w in
        next keep fwd w = Ok armed
        /\ exists w2,
            next keep fwd armed = Ok w2
            /\ StackItem.prev (current w2) = Some cur
            /\ StackItem.current_index (current w2) = (if d then 0 else m - 1)
            /\ StackItem.wrapped (current w2) = true
            /\ StackItem.try_wrapped (current w2) = false
            /\ StackItem.forward (current w2) = d
            /\ StackItem.regions (current w2) = StackItem.regions cur
            /\ StackItem.search (current w2) = StackItem.search cur).
Proof.
  intros H.
  destruct (H MoreSessions.host_one MoreSessions.world_one_armed true (Some false))
    as [H1 _].
  - reflexivity.
  - vm_compute. reflexivity.
  - right. left. split; reflexivity.
  - apply (f_equal (fun r => match r with
                             | Ok w => StackItem.depth (current w)
                             | Raise _ => O
                             end)) in H1.
    vm_compute in H1. discriminate H1.
Qed.

(** What the first backward step does there. *)
Example reversed_step_example :
  exists w2,
    next (host := MoreSessions.host_one) true (Some false) MoreSessions.world_one_armed
    = Ok w2
    /\ StackItem.prev (current w2) = Some MoreSessions.item_one
    /\ StackItem.current_index (current w2) = 0
    /\ StackItem.forward (current w2) = false
    /\ StackItem.wrapped (current w2) = true.
Proof.
  destruct (next (host := MoreSessions.host_one) true (Some false)
              MoreSessions.world_one_armed) as [w2 | ] eqn:E;
    [ | vm_compute in E; discriminate E ].
  exists w2. split; [reflexivity | ].
  vm_compute in E. injection E as <-. repeat split; reflexivity.
Qed.

(** C9 as stated fails: the query made of the one letter E with an acute
    accent, code point 201, holds an upper-case letter, and find searches
    it with IGNORECASE all the same, because the test of the code is the
    class A-Z. *)
Lemma accented_capital_is_folded :
  ~ (forall (host : Host) (regex : bool) (val : string),
        IGNORECASE <> 0 ->
        Z.land LITERAL IGNORECASE = 0 ->
        (Z.land (find_flags regex val) IGNORECASE <> IGNORECASE
         <-> exists c, In c (list_ascii_of_string val)
                       /\ upper_case_letter c = true)).
Proof.
  intros H.
  destruct (H Sessions.host_ab false (String "201" EmptyString)) as [_ H2].
  - vm_compute. discriminate.
  - reflexivity.
  - apply H2.
    + exists "201"%char. split; [left; reflexivity | reflexivity].
    + vm_compute. reflexivity.
Qed.

(** With that query the small letter of the buffer is found as well. *)
Example accented_capital_example :
  let host := BufferHost.make (String "233" (String " " (String "201" EmptyString)))
                CallsOnCancel in
  find_all (String "201" EmptyString) (find_flags false (String "201" EmptyString))
  = [Region.mk 0 1; Region.mk 2 3].
Proof. reflexivity. Qed.

End OnExamples.

(** ** The invariants hold in every session, and no call raises *)

Section Invariant.
Import ISearchInfo.
Context {host : Host}.

Lemma chain_wf_unfold (si : StackItem.t) :
  chain_wf si
  = (wf_item si
     /\ match StackItem.prev si with
        | Some p => chain_wf p
        | None => True
        end).
Proof. now destruct si. Qed.

Lemma chain_wf_head (si : StackItem.t) : chain_wf si -> wf_item si.
Proof. rewrite chain_wf_unfold. tauto. Qed.

Lemma chain_wf_set_try_wrapped (v : bool) (si : StackItem.t) :
  chain_wf si -> chain_wf (StackItem.set_try_wrapped v si).
Proof. destruct si. cbn. unfold wf_item. cbn. tauto. Qed.

Lemma root_regions_set_try_wrapped (v : bool) (si : StackItem.t) :
  StackItem.regions (root (StackItem.set_try_wrapped v si))
  = StackItem.regions (root si).
Proof. now destruct si as [[p | ] ? ? ? ? ? ? ?]. Qed.

(** Pushing a well-formed node keeps the invariants. *)
Lemma push_inv (w : World) (item : StackItem.t) :
  session_inv w -> wf_item item -> session_inv (push item w).
Proof.
  intros (Hc & Hr & Hi) Hwf. unfold session_inv, push.
  destruct w, item. cbn in *. unfold wf_item in *. cbn in *. tauto.
Qed.

Lemma update_inv (w : World) : session_inv w -> session_inv (update w).
Proof. intros H. rewrite update_frame. now destruct w. Qed.

(** __init__ and open succeed and establish the invariants. *)
Lemma start_inv (v : View.t) (h : Heap) (last : option string) (forward regex : bool) :
  exists w, start v h last forward regex = Ok w /\ session_inv w.
Proof.
  unfold start, new_list, StackItem.init. cbn [Z.leb andb mbind result_bind].
  eexists. split; [reflexivity | ].
  match goal with
  | |- session_inv (set_input_text _ (set_panel_open _ (update ?w))) =>
      assert (H : session_inv (update w))
  end.
  { apply update_inv. unfold session_inv, wf_item, len. cbn. repeat split; try lia; reflexivity. }
  revert H. generalize (update (mkWorld
    (StackItem.mk None "" [] (fresh (dom h)) (-1) forward false false)
    (View.get_point v) 0 forward true regex last true
    (<[fresh (dom h) := []]> h) v false "")).
  now intros [].
Qed.

(** find succeeds and keeps the invariants. *)
Lemma find_inv (w : World) (val : string) :
  session_inv w -> exists w', find val w = Ok w' /\ session_inv w'.
Proof.
  intros Hinv. destruct (0 <? str_len val) eqn:E.
  - apply Z.ltb_lt in E.
    pose proof (chain_wf_head _ (proj1 Hinv)) as Hwf.
    assert (Hgp : exists p, StackItem.get_point (current w) = Ok p)
      by (destruct (get_point_wf _ Hwf) as [[_ H] | (r & _ & _ & H)]; eauto).
    destruct Hgp as [p Hgp]. rewrite (find_nonempty w val p E Hgp).
    eexists. split; [reflexivity | ].
    apply update_inv, push_inv.
    + now destruct w.
    + unfold wf_item. cbn. apply find_closest_range.
  - unfold find. rewrite E. eexists. split; [reflexivity | ].
    now apply update_inv.
Qed.

(** on_change succeeds and keeps the invariants. *)
Lemma on_change_inv (w : World) (val : string) :
  session_inv w -> exists w', on_change val w = Ok w' /\ session_inv w'.
Proof.
  intros Hinv. unfold on_change. destruct (0 <? in_changes w) eqn:E.
  - eexists. split; [reflexivity | ]. apply Z.ltb_lt in E.
    destruct Hinv as (Hc & Hr & Hi). destruct w. unfold session_inv. cbn in *.
    repeat split; try assumption. lia.
  - now apply find_inv.
Qed.

(** set_text succeeds and keeps the invariants. *)
Lemma set_text_inv (w : World) (text : string) (is_pop : bool) :
  session_inv w -> exists w', set_text text is_pop w = Ok w' /\ session_inv w'.
Proof.
  intros (Hc & Hr & Hi). unfold set_text. apply on_change_inv.
  destruct w, is_pop; unfold session_inv; cbn in *; repeat split; try assumption; lia.
Qed.

(** step on a well-formed node succeeds; the node keeps everything but its
    flag, and the new node is well formed. *)
Lemma step_total (self : StackItem.t) (forward keep : bool) (h : Heap) :
  wf_item self ->
  exists (v : bool) (new : option StackItem.t) (h' : Heap),
    StackItem.step self forward keep h
    = Ok (StackItem.set_try_wrapped v self, new, h')
    /\ match new with
       | Some n => wf_item n
       | None => True
       end.
Proof.
  intros Hwf. unfold wf_item in Hwf. unfold StackItem.step.
  assert (Hnew : forall index wr,
             0 <= index < len (StackItem.regions self) ->
             forall s0, StackItem.regions s0 = StackItem.regions self ->
             exists n h',
               StackItem.step_new s0 index forward keep wr h = Ok (n, h')
               /\ wf_item n).
  { intros index wr Hidx s0 Hs0. rewrite <- Hs0 in Hidx.
    destruct (step_new_spec s0 index forward keep wr h Hidx) as (B & _ & Hn).
    rewrite Hn. eexists. eexists. split; [reflexivity | ].
    unfold wf_item. cbn. lia. }
  destruct (truthy (StackItem.regions self) && _) eqn:E1.
  - apply andb_true_iff in E1 as [Htr _]. apply truthy_len in Htr.
    destruct (StackItem.try_wrapped self || _).
    + destruct (Hnew (if forward then 0 else len (StackItem.regions self) - 1) true
                  ltac:(destruct forward; lia)
                  (StackItem.set_try_wrapped false self) ltac:(now destruct self))
        as (n & h' & Hn & Hwfn).
      rewrite Hn. cbn [mbind result_bind].
      exists false, (Some n), h'. split; [reflexivity | exact Hwfn].
    + exists true, None, h. split; [reflexivity | exact I].
  - clear E1. destruct ((forward && _) || _) eqn:E2.
    + destruct (Hnew (if forward then StackItem.current_index self + 1
                      else StackItem.current_index self - 1)
                  (StackItem.wrapped self)) with (s0 := self)
        as (n & h' & Hn & Hwfn); [ | reflexivity | ].
      * destruct forward; cbn [andb negb orb] in E2.
        -- rewrite orb_false_r in E2. apply Z.ltb_lt in E2. lia.
        -- apply Z.ltb_lt in E2. lia.
      * rewrite Hn. cbn [mbind result_bind].
        exists (StackItem.try_wrapped self), (Some n), h'.
        rewrite set_try_wrapped_id. split; [reflexivity | exact Hwfn].
    + exists (StackItem.try_wrapped self), None, h.
      rewrite set_try_wrapped_id. split; [reflexivity | exact I].
Qed.

(** next succeeds and keeps the invariants. *)
Lemma next_inv (w : World) (keep : bool) (fwd : option bool) :
  session_inv w -> exists w', next keep fwd w = Ok w' /\ session_inv w'.
Proof.
  intros Hinv. unfold next. destruct (StackItem.prev (current w)) as [p | ] eqn:Hp.
  - destruct (step_total (current w) (default (StackItem.forward (current w)) fwd)
                keep (heap w) (chain_wf_head _ (proj1 Hinv)))
      as (v & new & h' & Hs & Hwfn).
    rewrite Hs. cbn [mbind result_bind].
    assert (Hinv' : session_inv
                      (set_heap h' (set_current (StackItem.set_try_wrapped v (current w)) w))).
    { destruct Hinv as (Hc & Hr & Hi). unfold session_inv.
      replace (current (set_heap h' (set_current (StackItem.set_try_wrapped v (current w)) w)))
        with (StackItem.set_try_wrapped v (current w)) by reflexivity.
      rewrite root_regions_set_try_wrapped.
      split; [now apply chain_wf_set_try_wrapped | split; [exact Hr | exact Hi]]. }
    destruct new as [n | ]; eexists; (split; [reflexivity | ]).
    + now apply update_inv, push_inv.
    + exact Hinv'.
  - destruct (last_search w) as [s | ]; [destruct (truthy_str s) | ];
      try (eexists; split; [reflexivity | exact Hinv]).
    now apply set_text_inv.
Qed.

(** pop succeeds and keeps the invariants. *)
Lemma pop_inv (w : World) :
  session_inv w -> exists w', pop w = Ok w' /\ session_inv w'.
Proof.
  intros Hinv. unfold pop. destruct (StackItem.prev (current w)) as [p | ] eqn:Hp.
  - assert (Hinvp : session_inv (set_current p w)).
    { destruct Hinv as (Hc & Hr & Hi). unfold session_inv.
      rewrite chain_wf_unfold, Hp in Hc. rewrite root_unfold, Hp in Hr.
      destruct w; cbn in *. tauto. }
    destruct (set_text_inv (set_current p w)
                (StackItem.search (current (set_current p w))) true Hinvp)
      as (w1 & Hs & Hinv1).
    rewrite Hs. cbn [mbind result_bind].
    eexists. split; [reflexivity | ]. apply update_inv.
    destruct Hinv1 as (Hc & Hr & Hi). destruct w1; unfold session_inv; cbn in *. tauto.
  - eexists. split; [reflexivity | exact Hinv].
Qed.

(** quit succeeds. *)
Lemma quit_total (w : World) : session_inv w -> exists w', quit w = Ok w'.
Proof.
  intros Hinv. unfold quit.
  destruct (truthy (StackItem.regions (current w))); [eauto | ].
  destruct (StackItem.prev (current (set_current (back_up (current w)) w))) eqn:Hp;
    [ | eauto ].
  assert (Hb : session_inv (set_current (back_up (current w)) w)).
  { destruct Hinv as (Hc & Hr & Hi). unfold session_inv. cbn [current set_current].
    assert (G : chain_wf (back_up (current w))
                /\ StackItem.regions (root (back_up (current w))) = []).
    { clear Hp Hi. revert Hc Hr.
      induction (current w) as [si Hq | si q Hq IH] using chain_ind;
        intros Hc Hr; rewrite back_up_unfold, Hq.
      - auto.
      - destruct (negb _); [ | auto ].
        rewrite chain_wf_unfold, Hq in Hc. rewrite root_unfold, Hq in Hr.
        apply IH; tauto. }
    destruct w; cbn in *. tauto. }
  destruct (pop_inv _ Hb) as (w' & Hw & _). eauto.
Qed.

(** The loop of append_from_cursor succeeds and keeps the invariants. *)
Lemma append_word_inv (rounds : nat) (point limit : Z) (search separators : string)
    (case_sensitive : bool) (w : World) :
  session_inv w ->
  exists w',
    append_word rounds point limit search separators case_sensitive w = Ok w'
    /\ session_inv w'.
Proof.
  revert point search w. induction rounds as [| rounds IH]; intros point search w Hinv;
    cbn [append_word].
  - eauto.
  - destruct ((point <? limit) && is_word_char point separators); [ | eauto ].
    match goal with
    | |- context [on_change ?s w] => destruct (on_change_inv w s Hinv) as (w1 & H1 & Hinv1)
    end.
    rewrite H1. cbn [mbind result_bind]. now apply IH.
Qed.

(** append_from_cursor succeeds and keeps the invariants. *)
Lemma append_from_cursor_inv (w : World) :
  session_inv w -> exists w', append_from_cursor w = Ok w' /\ session_inv w'.
Proof.
  intros Hinv. unfold append_from_cursor.
  destruct (_ && _); [eauto | ].
  destruct (size <=? _); [eauto | ].
  destruct (_ <? size).
  - match goal with
    | |- context [on_change ?s w] => destruct (on_change_inv w s Hinv) as (w1 & H1 & Hinv1)
    end.
    rewrite H1. cbn [mbind result_bind].
    match goal with
    | |- context [append_word ?n ?p ?l ?s ?sep ?cs w1] =>
        destruct (append_word_inv n p l s sep cs w1 Hinv1) as (w2 & H2 & Hinv2)
    end.
    rewrite H2. cbn [mbind result_bind]. now apply set_text_inv.
  - cbn [mbind result_bind]. now apply set_text_inv.
Qed.

End Invariant.

(** ** No call raises *)

Section NeverRaises.
Import ISearchInfo.
Context {host : Host}.

(** The invariants speak of the chain and of [in_changes] only. *)
Lemma session_inv_same (w w' : World) :
  current w' = current w -> in_changes w' = in_changes w ->
  session_inv w -> session_inv w'.
Proof. unfold session_inv. intros -> ->. tauto. Qed.

Lemma finish_inv (abort : bool) (w : World) :
  session_inv w -> session_inv (finish abort w).
Proof. apply session_inv_same; now rewrite finish_frame. Qed.

Lemma on_done_inv (w : World) : session_inv w -> session_inv (on_done w).
Proof.
  intros H. unfold on_done. destruct (is_active _).
  - apply finish_inv. revert H. now apply session_inv_same.
  - revert H. now apply session_inv_same.
Qed.

Lemma on_cancel_inv (w : World) : session_inv w -> session_inv (on_cancel w).
Proof.
  intros H. unfold on_cancel. destruct (is_active _).
  - apply finish_inv. revert H. now apply session_inv_same.
  - revert H. now apply session_inv_same.
Qed.

Lemma hide_panel_inv (w : World) : session_inv w -> session_inv (hide_panel w).
Proof.
  intros H. unfold hide_panel. destruct (panel_open w); [ | exact H ].
  assert (H' : session_inv (set_panel_open false w))
    by (revert H; now apply session_inv_same).
  destruct hide_panel_event; [exact H' | now apply on_done_inv | now apply on_cancel_inv].
Qed.

Lemma cancel_inv (w : World) : session_inv w -> session_inv (cancel w).
Proof. intros H. unfold cancel. now apply finish_inv, hide_panel_inv. Qed.

Lemma back_up_inv (w : World) :
  session_inv w -> session_inv (set_current (back_up (current w)) w).
Proof.
  intros (Hc & Hr & Hi). unfold session_inv. cbn [current set_current].
  assert (G : chain_wf (back_up (current w))
              /\ StackItem.regions (root (back_up (current w))) = []).
  { clear Hi. revert Hc Hr.
    induction (current w) as [si Hq | si q Hq IH] using chain_ind;
      intros Hc Hr; rewrite back_up_unfold, Hq.
    - auto.
    - destruct (negb _); [ | auto ].
      rewrite chain_wf_unfold, Hq in Hc. rewrite root_unfold, Hq in Hr.
      apply IH; tauto. }
  destruct w; cbn in *. tauto.
Qed.

Lemma quit_inv (w : World) :
  session_inv w -> exists w', quit w = Ok w' /\ session_inv w'.
Proof.
  intros Hinv. unfold quit.
  destruct (truthy (StackItem.regions (current w))).
  - eexists. split; [reflexivity | now apply cancel_inv].
  - pose proof (back_up_inv w Hinv) as Hb.
    destruct (StackItem.prev (current (set_current (back_up (current w)) w))).
    + now apply pop_inv.
    + eexists. split; [reflexivity | now apply cancel_inv].
Qed.

Lemma run_call_inv (c : call) (w : World) :
  session_inv w -> exists w', run_call c w = Ok w' /\ session_inv w'.
Proof.
  intros Hinv. destruct c; cbn [run_call];
    try (eexists; split; [reflexivity | ]).
  - now apply on_change_inv.
  - now apply on_done_inv.
  - now apply on_cancel_inv.
  - now apply next_inv.
  - now apply pop_inv.
  - now apply append_from_cursor_inv.
  - now apply quit_inv.
  - now apply cancel_inv.
  - now apply hide_panel_inv.
  - unfold deactivate. apply finish_inv. revert Hinv. now apply session_inv_same.
Qed.

Lemma run_calls_inv (cs : list call) (w0 : World) :
  session_inv w0 -> exists w, run_calls cs w0 = Ok w /\ session_inv w.
Proof.
  revert w0. induction cs as [| c cs IH]; intros w0 Hinv; cbn [run_calls].
  - eauto.
  - destruct (run_call_inv c w0 Hinv) as (w1 & H1 & Hinv1).
    rewrite H1. cbn [mbind result_bind]. now apply IH.
Qed.

(** X1. Whatever is typed, stepped, popped, grown or quit after a search
    is started, on any view and any host, no call raises: every index the
    engine uses is in range.  The state reached has well-formed nodes
    (active index -1 or an index of the match list), a root without
    matches and a counter of awaited replays that is not negative. *)
Theorem no_call_raises (v : View.t) (h : Heap) (last : option string)
    (forward regex : bool) (cs : list call) :
  exists w0 w,
    start v h last forward regex = Ok w0
    /\ run_calls cs w0 = Ok w
    /\ session_inv w.
Proof.
  destruct (start_inv v h last forward regex) as (w0 & Hs & Hinv).
  destruct (run_calls_inv cs w0 Hinv) as (w & Hw & Hinvw).
  exists w0, w. auto.
Qed.

End NeverRaises.

(** ** Bounds of find_closest *)

(** X2. On any match list, sorted or not, find_closest returns -1 or an
    index of the list, and -1 on the empty list.  A match returned for a
    forward search ends at or after the anchor, and one returned for a
    backward search begins at or before it. *)
Theorem find_closest_sound (regions : list Region.t) (pos : Z) (forward : bool) :
  -1 <= ISearchInfo.find_closest regions pos forward < len regions
  /\ (regions = [] -> ISearchInfo.find_closest regions pos forward = -1)
  /\ (forall r,
         regions !! Z.to_nat (ISearchInfo.find_closest regions pos forward) = Some r ->
         0 <= ISearchInfo.find_closest regions pos forward ->
         if forward then pos <= Region.end_ r else Region.begin r <= pos).
Proof.
  split; [apply find_closest_range | ].
  split; [now intros -> | ].
  unfold ISearchInfo.find_closest. destruct (len regions =? 0) eqn:E0; [lia | ].
  apply Z.eqb_neq in E0. destruct forward.
  - destruct (closest_forward_spec regions pos 0)
      as [[-> _] | (i & r0 & -> & Hl & Hp & _)]; [lia | ].
    intros r Hr _. rewrite Z.add_0_l, Nat2Z.id, Hl in Hr. now injection Hr as <-.
  - destruct (closest_backward_spec regions pos 0 (len regions - 1))
      as [[-> Hall] | (n & r0 & -> & Hl & Hp & Hbefore)].
    + intros r Hr _. apply Hall. eapply list_elem_of_lookup_2. exact Hr.
    + intros r Hr H0. apply (Hbefore (Z.to_nat (0 + Z.of_nat n - 1))); [lia | exact Hr].
Qed.

(** ** Reading a world after update *)

Lemma update_in_changes (w : ISearchInfo.World) :
  ISearchInfo.in_changes (ISearchInfo.update w) = ISearchInfo.in_changes w.
Proof. now rewrite update_frame. Qed.

Lemma update_input_text (w : ISearchInfo.World) :
  ISearchInfo.input_text (ISearchInfo.update w) = ISearchInfo.input_text w.
Proof. now rewrite update_frame. Qed.

Lemma update_forward (w : ISearchInfo.World) :
  ISearchInfo.forward (ISearchInfo.update w) = ISearchInfo.forward w.
Proof. now rewrite update_frame. Qed.

Lemma update_point (w : ISearchInfo.World) :
  ISearchInfo.point (ISearchInfo.update w) = ISearchInfo.point w.
Proof. now rewrite update_frame. Qed.

Lemma update_regex (w : ISearchInfo.World) :
  ISearchInfo.regex (ISearchInfo.update w) = ISearchInfo.regex w.
Proof. now rewrite update_frame. Qed.

Lemma update_last_search (w : ISearchInfo.World) :
  ISearchInfo.last_search (ISearchInfo.update w) = ISearchInfo.last_search w.
Proof. now rewrite update_frame. Qed.

Lemma update_panel_open (w : ISearchInfo.World) :
  ISearchInfo.panel_open (ISearchInfo.update w) = ISearchInfo.panel_open w.
Proof. now rewrite update_frame. Qed.

(** Reads fields through update, the setters and push, without touching
    the view or the list store. *)
Ltac read_world :=
  repeat first
    [ rewrite update_current | rewrite update_heap | rewrite update_in_changes
    | rewrite update_input_text | rewrite update_forward | rewrite update_point
    | rewrite update_regex | rewrite update_last_search
    | rewrite update_panel_open | rewrite update_sel
    | progress
        cbn [ISearchInfo.current ISearchInfo.point ISearchInfo.in_changes
             ISearchInfo.forward ISearchInfo.is_active ISearchInfo.regex
             ISearchInfo.last_search ISearchInfo.isearch_info ISearchInfo.heap
             ISearchInfo.view ISearchInfo.panel_open ISearchInfo.input_text
             ISearchInfo.set_current ISearchInfo.set_in_changes
             ISearchInfo.set_forward ISearchInfo.set_is_active
             ISearchInfo.set_last_search ISearchInfo.set_isearch_info
             ISearchInfo.set_heap ISearchInfo.set_view ISearchInfo.set_panel_open
             ISearchInfo.set_input_text ISearchInfo.push
             StackItem.prev StackItem.search StackItem.regions StackItem.selected
             StackItem.current_index StackItem.forward StackItem.try_wrapped
             StackItem.wrapped StackItem.set_prev StackItem.set_try_wrapped] ].

(** ** Moving along the history *)

Section History.
Import ISearchInfo.

(** X3. A query change to the empty string pushes no state: the stack top,
    the list store, the counter and the selection stay as they are, and
    only the display is refreshed. *)
Theorem empty_query_pushes_nothing {host : Host} (w : World) :
  in_changes w <= 0 ->
  on_change "" w = Ok (update w)
  /\ current (update w) = current w
  /\ heap (update w) = heap w
  /\ in_changes (update w) = in_changes w
  /\ View.sel (view (update w)) = View.sel (view w).
Proof.
  intros Hic. unfold on_change, find.
  assert (E : (0 <? in_changes w) = false) by (apply Z.ltb_ge; exact Hic).
  rewrite E. cbn [str_len String.length Z.of_nat Z.ltb Z.compare].
  split; [reflexivity | ]. read_world. repeat split.
Qed.

Lemma empty_query_pushes_nothing_witness :
  on_change (host := Sessions.host_ab) "" Sessions.world_ab
  = Ok (update Sessions.world_ab)
  /\ current (update Sessions.world_ab) = Sessions.item_ab.
Proof.
  destruct (empty_query_pushes_nothing (host := Sessions.host_ab) Sessions.world_ab)
    as (H1 & H2 & _).
  - vm_compute. discriminate.
  - split; [exact H1 | exact H2].
Defined.

(** What set_text does for a pop. *)
Lemma replayed_text_is_absorbed_aux {host : Host} (w : World) (text : string) :
  0 <= in_changes w ->
  set_text text true w = Ok (set_input_text text w).
Proof.
  intros Hic. unfold set_text, on_change.
  cbn [in_changes set_in_changes set_input_text].
  assert (E : (0 <? in_changes w + 1) = true) by (apply Z.ltb_lt; lia).
  rewrite E. replace (in_changes w + 1 - 1) with (in_changes w) by lia.
  now destruct w.
Qed.

(** X4. Setting the text of the input line for a pop changes that text and
    nothing else: the change the host reports back is absorbed by the
    counter, which returns to its value, and no state is pushed. *)
Theorem replayed_text_is_absorbed {host : Host} (w : World) (text : string) :
  0 <= in_changes w ->
  set_text text true w = Ok (set_input_text text w).
Proof.
  exact (replayed_text_is_absorbed_aux w text).
Qed.

Lemma replayed_text_is_absorbed_witness :
  set_text (host := Sessions.host_ab) "a" true Sessions.world_ab
  = Ok (set_input_text "a" Sessions.world_ab).
Proof.
  apply (replayed_text_is_absorbed (host := Sessions.host_ab)).
  vm_compute. discriminate.
Defined.

(** pop on a state that has a predecessor. *)
Lemma pop_to_prev {host : Host} (w : World) (p : StackItem.t) :
  StackItem.prev (current w) = Some p ->
  0 <= in_changes w ->
  pop w
  = Ok (update (set_forward (StackItem.forward p)
                  (set_input_text (StackItem.search p) (set_current p w)))).
Proof.
  intros Hp Hic. unfold pop. rewrite Hp.
  rewrite replayed_text_is_absorbed_aux by exact Hic.
  reflexivity.
Qed.

(** X5. pop right after a query change goes back to the state the query
    was typed in: the stack top is that state again, the input line
    shows its query, the session direction is that state's direction, the
    counter and the anchor are as before, and every list that existed
    before the query change still has its elements. *)
Theorem pop_undoes_find {host : Host} (w : World) (val : string) :
  0 < str_len val ->
  wf_item (current w) ->
  0 <= in_changes w ->
  exists w1 w2,
    find val w = Ok w1
    /\ pop w1 = Ok w2
    /\ current w2 = current w
    /\ input_text w2 = StackItem.search (current w)
    /\ forward w2 = StackItem.forward (current w)
    /\ in_changes w2 = in_changes w
    /\ point w2 = point w
    /\ (forall l, l ∈ dom (heap w) -> heap w2 !! l = heap w !! l).
Proof.
  intros Hlen Hwf Hic.
  assert (Hgp : exists p, StackItem.get_point (current w) = Ok p)
    by (destruct (get_point_wf _ Hwf) as [[_ H] | (r & _ & _ & H)]; eauto).
  destruct Hgp as [p Hgp].
  rewrite (find_nonempty w val p Hlen Hgp).
  eexists. eexists. split; [reflexivity | ].
  rewrite (pop_to_prev _ (current w)).
  - split; [reflexivity | ]. read_world.
    repeat split. intros l Hl. now apply insert_fresh_old.
  - now read_world.
  - now read_world.
Qed.

Lemma depth_set_try_wrapped (v : bool) (si : StackItem.t) :
  StackItem.depth (StackItem.set_try_wrapped v si) = StackItem.depth si.
Proof. now destruct si. Qed.

Lemma depth_pushed (x n : StackItem.t) :
  StackItem.depth (StackItem.set_prev (Some x) n) = S (StackItem.depth x).
Proof. now destruct n. Qed.

(** X6. When next pushes a state, pop right after it goes back to the
    state stepped from, which is as it was but for its pending-wrap flag;
    the input line shows its query and the session direction is its
    direction. *)
Theorem pop_undoes_step {host : Host} (w w1 : World) (keep : bool) (fwd : option bool) :
  wf_item (current w) ->
  0 <= in_changes w ->
  next keep fwd w = Ok w1 ->
  StackItem.depth (current w1) = S (StackItem.depth (current w)) ->
  exists w2,
    pop w1 = Ok w2
    /\ StackItem.set_try_wrapped false (current w2)
       = StackItem.set_try_wrapped false (current w)
    /\ input_text w2 = StackItem.search (current w)
    /\ forward w2 = StackItem.forward (current w)
    /\ in_changes w2 = in_changes w.
Proof.
  intros Hwf Hic Hnext Hdepth. unfold next in Hnext.
  destruct (StackItem.prev (current w)) as [p | ] eqn:Hp.
  - destruct (step_total (current w) (default (StackItem.forward (current w)) fwd)
                keep (heap w) Hwf) as (v & new & h' & Hs & _).
    rewrite Hs in Hnext. cbn [mbind result_bind] in Hnext.
    destruct new as [n | ]; injection Hnext as <-.
    + rewrite (pop_to_prev _ (StackItem.set_try_wrapped v (current w))).
      * eexists. split; [reflexivity | ]. read_world.
        repeat split.
      * now read_world.
      * now read_world.
    + cbn [current set_heap set_current] in Hdepth.
      rewrite depth_set_try_wrapped in Hdepth. lia.
  - (* at the root the last query is typed again: the state it pushes has
       the root below it *)
    destruct (last_search w) as [s | ]; [destruct (truthy_str s) eqn:Es | ];
      try (injection Hnext as <-; lia).
    unfold set_text, on_change in Hnext.
    cbn [in_changes set_input_text] in Hnext.
    destruct (0 <? in_changes w) eqn:E.
    + injection Hnext as <-. cbn [current set_in_changes set_input_text] in Hdepth. lia.
    + assert (Hlen : 0 < str_len s) by (destruct s; [discriminate | unfold str_len; cbn; lia]).
      assert (Hgp : exists p, StackItem.get_point (current (set_input_text s w)) = Ok p)
        by (destruct (get_point_wf _ Hwf) as [[_ H] | (r & _ & _ & H)]; eauto).
      destruct Hgp as [p Hgp].
      rewrite (find_nonempty _ s p Hlen Hgp) in Hnext. injection Hnext as <-.
      rewrite (pop_to_prev _ (current w)).
      * eexists. split; [reflexivity | ]. read_world. repeat split.
      * now read_world.
      * now read_world.
Qed.

(** The test that opens the wrap branch of step fails inside the list. *)
Lemma inside_test (self : StackItem.t) (d : bool) :
  (d = true /\ 0 <= StackItem.current_index self < len (StackItem.regions self) - 1)
  \/ (d = false /\ 0 < StackItem.current_index self < len (StackItem.regions self)) ->
  truthy (StackItem.regions self)
  && ((StackItem.current_index self <? 0)
      || ((StackItem.current_index self =? 0) && negb d)
      || ((StackItem.current_index self =? len (StackItem.regions self) - 1) && d))
  = false
  /\ (d && (StackItem.current_index self <? len (StackItem.regions self) - 1))
     || (negb d && (0 <? StackItem.current_index self)) = true.
Proof.
  intros [[-> H] | [-> H]]; cbn [negb andb orb].
  - assert (E1 : (StackItem.current_index self <? 0) = false) by (apply Z.ltb_ge; lia).
    assert (E2 : (StackItem.current_index self =? len (StackItem.regions self) - 1) = false)
      by (apply Z.eqb_neq; lia).
    assert (E3 : (StackItem.current_index self <? len (StackItem.regions self) - 1) = true)
      by (apply Z.ltb_lt; lia).
    rewrite E1, E2, E3.
    destruct (truthy _), (StackItem.current_index self =? 0); split; reflexivity.
  - assert (E1 : (StackItem.current_index self <? 0) = false) by (apply Z.ltb_ge; lia).
    assert (E2 : (StackItem.current_index self =? 0) = false) by (apply Z.eqb_neq; lia).
    assert (E3 : (0 <? StackItem.current_index self) = true) by (apply Z.ltb_lt; lia).
    rewrite E1, E2, E3.
    destruct (truthy _),
      (StackItem.current_index self =? len (StackItem.regions self) - 1);
      split; reflexivity.
Qed.

(** X7. A step inside the match list, away from the boundary in the
    direction of travel, pushes a state with the neighbouring index, the
    same query and matches, the wrapped flag carried over and the
    direction of the step.  The state stepped from keeps its pending-wrap
    flag, and the direction of the session is not changed by the step. *)
Theorem step_inside {host : Host} (w : World) (keep : bool) (fwd : option bool) :
  let cur := current w in
  let d := default (StackItem.forward cur) fwd in
  let i := StackItem.current_index cur in
  StackItem.regions (root cur) = [] ->
  (d = true /\ 0 <= i < len (StackItem.regions cur) - 1)
  \/ (d = false /\ 0 < i < len (StackItem.regions cur)) ->
  exists w1,
    next keep fwd w = Ok w1
    /\ StackItem.prev (current w1) = Some cur
    /\ StackItem.current_index (current w1) = (if d then i + 1 else i - 1)
    /\ StackItem.wrapped (current w1) = StackItem.wrapped cur
    /\ StackItem.try_wrapped (current w1) = false
    /\ StackItem.forward (current w1) = d
    /\ StackItem.regions (current w1) = StackItem.regions cur
    /\ StackItem.search (current w1) = StackItem.search cur
    /\ forward w1 = forward w.
Proof.
  intros cur d i Hroot Hin.
  assert (Hm : 0 < len (StackItem.regions cur)) by (fold i in Hin; lia).
  assert (Hprev : exists p, StackItem.prev cur = Some p).
  { destruct (StackItem.prev cur) as [p | ] eqn:Hp; [eauto | exfalso].
    rewrite root_unfold, Hp in Hroot. rewrite Hroot in Hm.
    unfold len in Hm. simpl in Hm. lia. }
  destruct Hprev as [p Hp].
  destruct (inside_test cur d Hin) as [T1 T2].
  unfold next. fold cur. rewrite Hp. fold d.
  unfold StackItem.step. rewrite T1, T2.
  assert (Hidx : 0 <= (if d then StackItem.current_index cur + 1
                       else StackItem.current_index cur - 1)
                 < len (StackItem.regions cur))
    by (fold i; destruct Hin as [[-> H] | [-> H]]; lia).
  destruct (step_new_spec cur _ d keep (StackItem.wrapped cur) (heap w) Hidx)
    as (B & _ & Hnew).
  rewrite Hnew. cbn [mbind result_bind].
  eexists. split; [reflexivity | ]. read_world. repeat split.
Qed.

(** X8. On a state without matches that is not the root, next does
    nothing at all: no state is pushed and the pending-wrap flag is not
    armed. *)
Theorem step_without_matches {host : Host} (w : World) (keep : bool)
    (fwd : option bool) (p : StackItem.t) :
  StackItem.prev (current w) = Some p ->
  StackItem.regions (current w) = [] ->
  wf_item (current w) ->
  next keep fwd w = Ok w.
Proof.
  intros Hp Hr Hwf. unfold wf_item in Hwf. rewrite Hr in Hwf.
  unfold len in Hwf. cbn in Hwf.
  unfold next. rewrite Hp. unfold StackItem.step. rewrite Hr.
  cbn [truthy andb].
  assert (E1 : (StackItem.current_index (current w) <? len (@nil Region.t) - 1) = false)
    by (apply Z.ltb_ge; unfold len; cbn; lia).
  assert (E2 : (0 <? StackItem.current_index (current w)) = false)
    by (apply Z.ltb_ge; lia).
  rewrite E1, E2, !andb_false_r. cbn [orb mbind result_bind].
  now destruct w.
Qed.

(** X9. A pending wrap is confirmed by the next step at a boundary in
    either direction, whichever step armed it: with the flag set and the
    active index at the boundary in the direction of the step, next pushes
    a wrapped state at index 0 (forward) or m-1 (backward) and clears the
    flag of the state stepped from. *)
Theorem armed_wrap_is_confirmed {host : Host} (w : World) (keep : bool)
    (fwd : option bool) :
  let cur := current w in
  let d := default (StackItem.forward cur) fwd in
  let m := len (StackItem.regions cur) in
  StackItem.regions (root cur) = [] ->
  0 < m ->
  (StackItem.current_index cur < 0
   \/ (StackItem.current_index cur = 0 /\ d = false)
   \/ (StackItem.current_index cur = m - 1 /\ d = true)) ->
  StackItem.try_wrapped cur = true ->
  exists w1,
    next keep fwd w = Ok w1
    /\ StackItem.prev (current w1) = Some (StackItem.set_try_wrapped false cur)
    /\ StackItem.current_index (current w1) = (if d then 0 else m - 1)
    /\ StackItem.wrapped (current w1) = true
    /\ StackItem.forward (current w1) = d.
Proof.
  intros cur d m Hroot Hm Hb Htw.
  assert (Hprev : exists p, StackItem.prev cur = Some p).
  { destruct (StackItem.prev cur) as [p | ] eqn:Hp; [eauto | exfalso].
    rewrite root_unfold, Hp in Hroot. unfold m in Hm. rewrite Hroot in Hm.
    unfold len in Hm. simpl in Hm. lia. }
  destruct Hprev as [p Hp].
  pose proof (at_boundary_test cur d Hm Hb) as Htest.
  unfold next. fold cur. rewrite Hp. fold d.
  unfold StackItem.step. rewrite Htest, Htw. cbn [orb].
  assert (Hidx : 0 <= (if d then 0 else len (StackItem.regions cur) - 1)
                 < len (StackItem.regions (StackItem.set_try_wrapped false cur)))
    by (replace (StackItem.regions (StackItem.set_try_wrapped false cur))
          with (StackItem.regions cur) by (now destruct cur);
        fold m; destruct d; lia).
  destruct (step_new_spec (StackItem.set_try_wrapped false cur) _ d keep true
              (heap w) Hidx) as (B & _ & Hnew).
  rewrite Hnew. cbn [mbind result_bind].
  eexists. split; [reflexivity | ]. read_world. repeat split.
Qed.

End History.

Lemma pop_undoes_find_witness :
  exists w1 w2,
    ISearchInfo.find (host := Sessions.host_ab) "abz" Sessions.world_ab = Ok w1
    /\ ISearchInfo.pop (host := Sessions.host_ab) w1 = Ok w2
    /\ ISearchInfo.current w2 = Sessions.item_ab
    /\ ISearchInfo.input_text w2 = "ab"%string.
Proof.
  destruct (pop_undoes_find (host := Sessions.host_ab) Sessions.world_ab "abz")
    as (w1 & w2 & Hf & Hp & Hc & Ht & _).
  - vm_compute. reflexivity.
  - unfold wf_item. vm_compute. split; [discriminate | reflexivity].
  - vm_compute. discriminate.
  - exists w1, w2. auto.
Defined.

Lemma pop_undoes_step_witness :
  exists w1 w2,
    ISearchInfo.next (host := Sessions.host_ab) true None Sessions.world_ab = Ok w1
    /\ ISearchInfo.pop (host := Sessions.host_ab) w1 = Ok w2
    /\ ISearchInfo.input_text w2 = "ab"%string
    /\ ISearchInfo.forward w2 = true.
Proof.
  destruct (ISearchInfo.next (host := Sessions.host_ab) true None Sessions.world_ab)
    as [w1 | ] eqn:E; [ | vm_compute in E; discriminate E ].
  assert (Hwf : wf_item (ISearchInfo.current Sessions.world_ab))
    by (unfold wf_item; vm_compute; split; [discriminate | reflexivity]).
  assert (Hic : 0 <= ISearchInfo.in_changes Sessions.world_ab)
    by (vm_compute; discriminate).
  assert (Hd : StackItem.depth (ISearchInfo.current w1)
               = S (StackItem.depth (ISearchInfo.current Sessions.world_ab)))
    by (vm_compute in E; injection E as <-; reflexivity).
  destruct (pop_undoes_step (host := Sessions.host_ab) Sessions.world_ab w1 true None
              Hwf Hic E Hd) as (w2 & Hp & _ & Ht & Hf & _).
  exists w1, w2. auto.
Defined.

Lemma step_inside_witness :
  exists w1,
    ISearchInfo.next (host := Sessions.host_ab) true None Sessions.world_ab = Ok w1
    /\ StackItem.current_index (ISearchInfo.current w1) = 2
    /\ StackItem.prev (ISearchInfo.current w1) = Some Sessions.item_ab.
Proof.
  destruct (step_inside (host := Sessions.host_ab) Sessions.world_ab true None)
    as (w1 & Hn & Hp & Hi & _).
  - reflexivity.
  - left. split; [reflexivity | ]. vm_compute. split; [discriminate | reflexivity].
  - exists w1. auto.
Defined.

Lemma step_without_matches_witness :
  ISearchInfo.next (host := Sessions.host_ab) true None Sessions.world_abz
  = Ok Sessions.world_abz.
Proof.
  apply (step_without_matches (host := Sessions.host_ab) Sessions.world_abz true None
           Sessions.item_ab).
  - reflexivity.
  - reflexivity.
  - unfold wf_item. vm_compute. split; [discriminate | reflexivity].
Defined.

Lemma armed_wrap_is_confirmed_witness :
  exists w1,
    ISearchInfo.next (host := Sessions.host_ab) true (Some false)
      (ISearchInfo.set_current
         (StackItem.mk (Some Sessions.root_fwd) "ab" [Region.mk 0 2] 1%nat 0 true true false)
         Sessions.world_ab) = Ok w1
    /\ StackItem.current_index (ISearchInfo.current w1) = 0
    /\ StackItem.wrapped (ISearchInfo.current w1) = true
    /\ StackItem.forward (ISearchInfo.current w1) = false.
Proof.
  destruct (armed_wrap_is_confirmed (host := Sessions.host_ab)
              (ISearchInfo.set_current
                 (StackItem.mk (Some Sessions.root_fwd) "ab" [Region.mk 0 2] 1%nat 0
                    true true false)
                 Sessions.world_ab) true (Some false))
    as (w1 & Hn & _ & Hi & Hw & Hf).
  - reflexivity.
  - vm_compute. reflexivity.
  - right. left. split; reflexivity.
  - reflexivity.
  - exists w1. auto.
Defined.

(** ** More on the finish paths *)

Lemma finish_last_search (abort : bool) (w : ISearchInfo.World) :
  ISearchInfo.last_search (ISearchInfo.finish abort w)
  = if truthy_str (StackItem.search (ISearchInfo.current w))
    then Some (StackItem.search (ISearchInfo.current w))
    else ISearchInfo.last_search w.
Proof.
  unfold ISearchInfo.finish.
  destruct (truthy_str _); destruct abort; cbn [negb];
    try (destruct (ISearchInfo.not_in_error _) as [si | ]; [ destruct (truthy _) | ]);
    now destruct w.
Qed.

Lemma finish_current (abort : bool) (w : ISearchInfo.World) :
  ISearchInfo.current (ISearchInfo.finish abort w) = ISearchInfo.current w.
Proof. now rewrite finish_frame. Qed.

Lemma hide_panel_current {host : Host} (w : ISearchInfo.World) :
  ISearchInfo.current (ISearchInfo.hide_panel w) = ISearchInfo.current w.
Proof.
  unfold ISearchInfo.hide_panel, ISearchInfo.on_done, ISearchInfo.on_cancel.
  destruct (ISearchInfo.panel_open w); [ | reflexivity ].
  destruct hide_panel_event; try reflexivity;
    destruct (ISearchInfo.is_active _); rewrite ?finish_current; reflexivity.
Qed.

(** X10. cancel always reverts: in every state of the session and whatever
    the host reports when the panel is hidden, the selection ends as the
    empty region at the anchor, both highlight sets are erased, the panel
    is closed and the stack is untouched; a query that is not empty is
    still recorded as the last search.  on_cancel does the same to the
    view of a session that is active. *)
Theorem cancel_always_reverts {host : Host} (w : ISearchInfo.World) :
  View.sel (ISearchInfo.view (ISearchInfo.cancel w))
    = [Region.mk (ISearchInfo.point w) (ISearchInfo.point w)]
  /\ View.marked (ISearchInfo.view (ISearchInfo.cancel w)) !! "find"%string = None
  /\ View.marked (ISearchInfo.view (ISearchInfo.cancel w)) !! "selected"%string = None
  /\ ISearchInfo.panel_open (ISearchInfo.cancel w) = false
  /\ ISearchInfo.current (ISearchInfo.cancel w) = ISearchInfo.current w
  /\ (truthy_str (StackItem.search (ISearchInfo.current w)) = true ->
      ISearchInfo.last_search (ISearchInfo.cancel w)
      = Some (StackItem.search (ISearchInfo.current w)))
  /\ (ISearchInfo.is_active w = true ->
      View.sel (ISearchInfo.view (ISearchInfo.on_cancel w))
      = [Region.mk (ISearchInfo.point w) (ISearchInfo.point w)]
      /\ ISearchInfo.isearch_info (ISearchInfo.on_cancel w) = false).
Proof.
  unfold ISearchInfo.cancel.
  destruct (finish_abort_view (ISearchInfo.hide_panel w)) as (Hs & Hf & Hsel).
  rewrite Hs, hide_panel_point, finish_panel_open, hide_panel_closed,
    finish_current, hide_panel_current, finish_last_search, hide_panel_current.
  repeat split; try assumption.
  - now intros ->.
  - unfold ISearchInfo.on_cancel.
    replace (ISearchInfo.is_active (ISearchInfo.set_isearch_info false w))
      with (ISearchInfo.is_active w) by reflexivity.
    rewrite H.
    now destruct (finish_abort_view (ISearchInfo.set_isearch_info false w)) as (-> & _).
  - unfold ISearchInfo.on_cancel.
    replace (ISearchInfo.is_active (ISearchInfo.set_isearch_info false w))
      with (ISearchInfo.is_active w) by reflexivity.
    rewrite H. now rewrite finish_frame.
Qed.

(** X11. A session is finished once.  After deactivate, the callbacks
    on_done and on_cancel only clear ViewState.isearch_info, and hiding
    the panel through done leaves the view and the last search as
    deactivate left them. *)
Theorem deactivated_session_finishes_once {host : Host} (w : ISearchInfo.World) :
  let w' := ISearchInfo.deactivate w in
  ISearchInfo.on_done w' = ISearchInfo.set_isearch_info false w'
  /\ ISearchInfo.on_cancel w' = ISearchInfo.set_isearch_info false w'
  /\ ISearchInfo.view (ISearchInfo.done w') = ISearchInfo.view w'
  /\ ISearchInfo.last_search (ISearchInfo.done w') = ISearchInfo.last_search w'
  /\ ISearchInfo.panel_open (ISearchInfo.done w') = false.
Proof.
  intros w'.
  assert (Ha : ISearchInfo.is_active w' = false)
    by (unfold w', ISearchInfo.deactivate; now rewrite finish_frame).
  assert (Hd : ISearchInfo.on_done w' = ISearchInfo.set_isearch_info false w').
  { unfold ISearchInfo.on_done.
    replace (ISearchInfo.is_active (ISearchInfo.set_isearch_info false w'))
      with (ISearchInfo.is_active w') by reflexivity.
    now rewrite Ha. }
  assert (Hc : ISearchInfo.on_cancel w' = ISearchInfo.set_isearch_info false w').
  { unfold ISearchInfo.on_cancel.
    replace (ISearchInfo.is_active (ISearchInfo.set_isearch_info false w'))
      with (ISearchInfo.is_active w') by reflexivity.
    now rewrite Ha. }
  split; [exact Hd | ]. split; [exact Hc | ].
  unfold ISearchInfo.done. rewrite hide_panel_closed.
  unfold ISearchInfo.hide_panel.
  destruct (ISearchInfo.panel_open w'); [ | auto ].
  unfold ISearchInfo.on_done, ISearchInfo.on_cancel.
  replace (ISearchInfo.is_active
             (ISearchInfo.set_isearch_info false (ISearchInfo.set_panel_open false w')))
    with (ISearchInfo.is_active w') by reflexivity.
  rewrite Ha. destruct hide_panel_event; auto.
Qed.

(** X12. finish leaves a mark only when it commits to selected spans:
    with abort, or when no state has a selected span to show, the mark
    ring is untouched and the status line is empty; otherwise the anchor
    is put on the mark ring, once, and the status line says so. *)
Theorem finish_marks_the_anchor (abort : bool) (w : ISearchInfo.World) :
  let committed :=
    negb abort
    && match ISearchInfo.not_in_error w with
       | Some si => truthy (deref (ISearchInfo.heap w) (StackItem.selected si))
       | None => false
       end in
  View.mark_ring (ISearchInfo.view (ISearchInfo.finish abort w))
    = (if committed
       then ISearchInfo.point w :: View.mark_ring (ISearchInfo.view w)
       else View.mark_ring (ISearchInfo.view w))
  /\ View.status (ISearchInfo.view (ISearchInfo.finish abort w))
     = (if committed then "Mark Saved" else "")%string.
Proof.
  assert (E : forall x,
             ISearchInfo.not_in_error
               (ISearchInfo.on_view View.sel_clear
                  (ISearchInfo.on_view (View.set_status "") x))
             = ISearchInfo.not_in_error x) by (now intros []).
  assert (E' : forall x s,
             ISearchInfo.not_in_error (ISearchInfo.set_last_search s x)
             = ISearchInfo.not_in_error x) by (now intros []).
  unfold ISearchInfo.finish. destruct abort; cbn [negb andb].
  - destruct (truthy_str _); now destruct w.
  - destruct (truthy_str _); rewrite E, ?E';
      (destruct (ISearchInfo.not_in_error w) as [si | ]; [ | now destruct w ]);
      destruct w; cbn; destruct (truthy _); cbn; split; reflexivity.
Qed.

(** ** Starting a search *)

(** The session __init__ and open build. *)
Lemma start_shape (v : View.t) (h : Heap) (last : option string)
    (forward regex : bool) (w0 : ISearchInfo.World) :
  ISearchInfo.start v h last forward regex = Ok w0 ->
  ISearchInfo.current w0
    = StackItem.mk None "" [] (fresh (dom h)) (-1) forward false false
  /\ ISearchInfo.last_search w0 = last
  /\ ISearchInfo.in_changes w0 = 0
  /\ ISearchInfo.regex w0 = regex
  /\ ISearchInfo.forward w0 = forward
  /\ ISearchInfo.point w0 = View.get_point v
  /\ ISearchInfo.heap w0 = <[fresh (dom h) := []]> h
  /\ ISearchInfo.panel_open w0 = true
  /\ View.sel (ISearchInfo.view w0) = View.sel v.
Proof.
  unfold ISearchInfo.start, new_list, StackItem.init.
  cbn [Z.leb andb mbind result_bind]. intros H. injection H as <-.
  read_world. repeat split.
Qed.

(** X13. Searching again: when a session whose query is not empty is
    finished, by commit or by abort, the first next of the session started
    after it types that query into the input line, and the state pushed
    holds the matches of that query, found with the flags of the new
    session. *)
Theorem search_again {host : Host} (old : ISearchInfo.World) (abort : bool)
    (v : View.t) (h : Heap) (forward regex keep : bool) (fwd : option bool) :
  truthy_str (StackItem.search (ISearchInfo.current old)) = true ->
  let s := StackItem.search (ISearchInfo.current old) in
  exists w0 w1,
    ISearchInfo.start v h (ISearchInfo.last_search (ISearchInfo.finish abort old))
      forward regex = Ok w0
    /\ ISearchInfo.next keep fwd w0 = Ok w1
    /\ StackItem.prev (ISearchInfo.current w1) = Some (ISearchInfo.current w0)
    /\ StackItem.search (ISearchInfo.current w1) = s
    /\ ISearchInfo.input_text w1 = s
    /\ StackItem.regions (ISearchInfo.current w1)
       = find_all s (ISearchInfo.find_flags regex s).
Proof.
  intros Hs s.
  destruct (start_inv v h (ISearchInfo.last_search (ISearchInfo.finish abort old))
              forward regex) as (w0 & Hw0 & _).
  exists w0. destruct (start_shape _ _ _ _ _ _ Hw0)
    as (Hcur & Hlast & Hic & Hre & _).
  rewrite finish_last_search, Hs in Hlast. fold s in Hlast.
  assert (Hp : StackItem.prev (ISearchInfo.current w0) = None) by now rewrite Hcur.
  unfold ISearchInfo.next. rewrite Hp, Hlast. fold s in Hs. rewrite Hs.
  unfold ISearchInfo.set_text, ISearchInfo.on_change.
  cbn [ISearchInfo.in_changes ISearchInfo.set_input_text]. rewrite Hic.
  cbn [Z.ltb Z.compare].
  assert (Hlen : 0 < str_len s)
    by (destruct s; [discriminate | unfold str_len; cbn; lia]).
  rewrite (find_nonempty _ s None Hlen)
    by (cbn [ISearchInfo.current ISearchInfo.set_input_text]; now rewrite Hcur).
  eexists. split; [exact Hw0 | ]. split; [reflexivity | ].
  read_world. rewrite Hre. repeat split.
Qed.

Lemma search_again_witness :
  exists w0 w1,
    ISearchInfo.start (BufferHost.view_at 0) ∅
      (ISearchInfo.last_search (ISearchInfo.finish true Sessions.world_ab))
      true false = Ok w0
    /\ ISearchInfo.next (host := Sessions.host_ab) true None w0 = Ok w1
    /\ StackItem.search (ISearchInfo.current w1) = "ab"%string
    /\ StackItem.regions (ISearchInfo.current w1) = Sessions.regions_ab.
Proof.
  destruct (search_again (host := Sessions.host_ab) Sessions.world_ab true
              (BufferHost.view_at 0) ∅ true false true None)
    as (w0 & w1 & H0 & H1 & _ & Hs & _ & Hr).
  - reflexivity.
  - exists w0, w1. repeat split; assumption.
Defined.

(** ** The state that is displayed *)

Section RootQuery.
Import ISearchInfo.

Lemma root_push (x n : StackItem.t) : root (StackItem.set_prev (Some x) n) = root x.
Proof. now destruct n. Qed.

Lemma root_search_flag (v : bool) (x : StackItem.t) :
  StackItem.search (root (StackItem.set_try_wrapped v x)) = StackItem.search (root x).
Proof. now destruct x as [[p | ] ? ? ? ? ? ? ?]. Qed.

Lemma root_prev (x p : StackItem.t) : StackItem.prev x = Some p -> root p = root x.
Proof. intros H. now rewrite (root_unfold x), H. Qed.

Lemma root_back_up (x : StackItem.t) : root (back_up x) = root x.
Proof.
  induction x as [x Hp | x p Hp IH] using chain_ind; rewrite back_up_unfold, Hp.
  - reflexivity.
  - destruct (negb _); [ | reflexivity ]. now rewrite IH, (root_prev x p).
Qed.

Context {host : Host}.

Lemma find_root (w w' : World) (val : string) :
  session_inv w -> find val w = Ok w' ->
  StackItem.search (root (current w')) = StackItem.search (root (current w)).
Proof.
  intros Hinv Hf. destruct (0 <? str_len val) eqn:E.
  - apply Z.ltb_lt in E.
    pose proof (chain_wf_head _ (proj1 Hinv)) as Hwf.
    assert (Hgp : exists p, StackItem.get_point (current w) = Ok p)
      by (destruct (get_point_wf _ Hwf) as [[_ H] | (r & _ & _ & H)]; eauto).
    destruct Hgp as [p Hgp]. rewrite (find_nonempty w val p E Hgp) in Hf.
    injection Hf as <-. rewrite update_current. unfold push.
    cbn [current set_current set_heap]. now rewrite root_push.
  - unfold find in Hf. rewrite E in Hf. injection Hf as <-.
    now rewrite update_current.
Qed.

Lemma on_change_root (w w' : World) (val : string) :
  session_inv w -> on_change val w = Ok w' ->
  StackItem.search (root (current w')) = StackItem.search (root (current w)).
Proof.
  intros Hinv H. unfold on_change in H. destruct (0 <? in_changes w).
  - now injection H as <-.
  - now apply (find_root w w' val).
Qed.

Lemma set_text_root (w w' : World) (text : string) (is_pop : bool) :
  session_inv w -> set_text text is_pop w = Ok w' ->
  StackItem.search (root (current w')) = StackItem.search (root (current w)).
Proof.
  intros (Hc & Hr & Hi) H. unfold set_text in H.
  apply on_change_root in H; [now destruct is_pop | ].
  destruct w, is_pop; unfold session_inv; cbn in *; repeat split; try assumption; lia.
Qed.

Lemma next_root (w w' : World) (keep : bool) (fwd : option bool) :
  session_inv w -> next keep fwd w = Ok w' ->
  StackItem.search (root (current w')) = StackItem.search (root (current w)).
Proof.
  intros Hinv H. unfold next in H.
  destruct (StackItem.prev (current w)) as [p | ] eqn:Hp.
  - destruct (step_total (current w) (default (StackItem.forward (current w)) fwd)
                keep (heap w) (chain_wf_head _ (proj1 Hinv)))
      as (v & new & h' & Hs & _).
    rewrite Hs in H. cbn [mbind result_bind] in H.
    destruct new as [n | ]; injection H as <-.
    + rewrite update_current. unfold push. cbn [current set_current set_heap].
      now rewrite root_push, root_search_flag.
    + cbn [current set_current set_heap]. now rewrite root_search_flag.
  - destruct (last_search w) as [s | ]; [destruct (truthy_str s) | ];
      try (now injection H as <-).
    now apply (set_text_root w w' s false).
Qed.

Lemma pop_root (w w' : World) :
  session_inv w -> pop w = Ok w' ->
  StackItem.search (root (current w')) = StackItem.search (root (current w)).
Proof.
  intros Hinv H. destruct (StackItem.prev (current w)) as [p | ] eqn:Hp.
  - rewrite (pop_to_prev w p Hp (proj2 (proj2 Hinv))) in H. injection H as <-.
    read_world. now rewrite (root_prev _ p Hp).
  - unfold pop in H. rewrite Hp in H. now injection H as <-.
Qed.

Lemma cancel_current (w : World) : current (cancel w) = current w.
Proof. unfold cancel. now rewrite finish_current, hide_panel_current. Qed.

Lemma quit_root (w w' : World) :
  session_inv w -> quit w = Ok w' ->
  StackItem.search (root (current w')) = StackItem.search (root (current w)).
Proof.
  intros Hinv H. unfold quit in H.
  destruct (truthy (StackItem.regions (current w))).
  - injection H as <-. now rewrite cancel_current.
  - pose proof (back_up_inv w Hinv) as Hb.
    destruct (StackItem.prev (current (set_current (back_up (current w)) w))).
    + apply pop_root in H; [ | exact Hb ]. rewrite H. read_world.
      now rewrite root_back_up.
    + injection H as <-. rewrite cancel_current. read_world.
      now rewrite root_back_up.
Qed.

Lemma append_word_root (rounds : nat) (point limit : Z) (search separators : string)
    (case_sensitive : bool) (w w' : World) :
  session_inv w ->
  append_word rounds point limit search separators case_sensitive w = Ok w' ->
  StackItem.search (root (current w')) = StackItem.search (root (current w)).
Proof.
  revert point search w. induction rounds as [| rounds IH]; intros point search w Hinv H;
    cbn [append_word] in H.
  - now injection H as <-.
  - destruct ((point <? limit) && is_word_char point separators);
      [ | now injection H as <- ].
    match type of H with
    | context [on_change ?s w] =>
        destruct (on_change_inv w s Hinv) as (w1 & H1 & Hinv1);
        pose proof (on_change_root w w1 s Hinv H1) as Hr1
    end.
    rewrite H1 in H. cbn [mbind result_bind] in H.
    rewrite <- Hr1. exact (IH _ _ w1 Hinv1 H).
Qed.

Lemma append_from_cursor_root (w w' : World) :
  session_inv w -> append_from_cursor w = Ok w' ->
  StackItem.search (root (current w')) = StackItem.search (root (current w)).
Proof.
  intros Hinv H. unfold append_from_cursor in H.
  destruct (_ && _); [now injection H as <- | ].
  destruct (size <=? _); [now injection H as <- | ].
  destruct (_ <? size).
  - match type of H with
    | context [on_change ?s w] =>
        destruct (on_change_inv w s Hinv) as (w1 & H1 & Hinv1);
        pose proof (on_change_root w w1 s Hinv H1) as Hr1
    end.
    rewrite H1 in H. cbn [mbind result_bind] in H.
    match type of H with
    | context [append_word ?n ?p ?l ?s ?sep ?cs w1] =>
        destruct (append_word_inv n p l s sep cs w1 Hinv1) as (w2 & H2 & Hinv2);
        pose proof (append_word_root n p l s sep cs w1 w2 Hinv1 H2) as Hr2
    end.
    rewrite H2 in H. cbn [mbind result_bind] in H.
    apply set_text_root in H; [ | exact Hinv2 ]. congruence.
  - cbn [mbind result_bind] in H. now apply set_text_root in H.
Qed.

Lemma run_call_root (c : call) (w w' : World) :
  session_inv w -> run_call c w = Ok w' ->
  StackItem.search (root (current w')) = StackItem.search (root (current w)).
Proof.
  intros Hinv H. destruct c as [val | | | keep fwd | | | | | | ]; cbn [run_call] in H.
  - now apply (on_change_root w w' val).
  - injection H as <-. unfold on_done. destruct (is_active _);
      now rewrite ?finish_current.
  - injection H as <-. unfold on_cancel. destruct (is_active _);
      now rewrite ?finish_current.
  - now apply (next_root w w' keep fwd).
  - now apply pop_root.
  - now apply append_from_cursor_root.
  - now apply quit_root.
  - injection H as <-. now rewrite cancel_current.
  - injection H as <-. unfold done. now rewrite hide_panel_current.
  - injection H as <-. unfold deactivate. now rewrite finish_current.
Qed.

Lemma run_calls_root (cs : list call) (w w' : World) :
  session_inv w -> run_calls cs w = Ok w' ->
  StackItem.search (root (current w')) = StackItem.search (root (current w)).
Proof.
  revert w. induction cs as [| c cs IH]; intros w Hinv H; cbn [run_calls] in H.
  - now injection H as <-.
  - destruct (run_call_inv c w Hinv) as (w1 & H1 & Hinv1).
    rewrite H1 in H. cbn [mbind result_bind] in H.
    rewrite (IH w1 Hinv1 H). now apply (run_call_root c).
Qed.

Lemma not_in_error_from_unfold (h : Heap) (si : StackItem.t) :
  not_in_error_from h si
  = if negb (truthy (deref h (StackItem.selected si)))
       && truthy_str (StackItem.search si)
    then match StackItem.prev si with
         | Some p => not_in_error_from h p
         | None => None
         end
    else Some si.
Proof. now destruct si. Qed.

Lemma depth_unfold (si : StackItem.t) :
  StackItem.depth si
  = match StackItem.prev si with
    | Some p => S (StackItem.depth p)
    | None => O
    end.
Proof. now destruct si. Qed.

(** The loop of not_in_error: the node found has a selected span or an
    empty query, lies at or below the start, and is the start exactly when
    the start has one of the two. *)
Lemma not_in_error_from_spec (h : Heap) (si : StackItem.t) :
  match not_in_error_from h si with
  | Some x =>
      (truthy (deref h (StackItem.selected x)) = true \/ StackItem.search x = ""%string)
      /\ (StackItem.depth x <= StackItem.depth si)%nat
      /\ (StackItem.depth x = StackItem.depth si
          <-> (truthy (deref h (StackItem.selected si)) = true
               \/ StackItem.search si = ""%string))
  | None => StackItem.search (root si) <> ""%string
  end.
Proof.
  assert (Hstop : forall x,
             negb (truthy (deref h (StackItem.selected x)))
             && truthy_str (StackItem.search x) = false
             <-> (truthy (deref h (StackItem.selected x)) = true
                  \/ StackItem.search x = ""%string)).
  { intros x. destruct (truthy _); cbn; [tauto | ].
    destruct (StackItem.search x); cbn; split; auto; intros [H | H]; discriminate. }
  induction si as [si Hp | si p Hp IH] using chain_ind;
    rewrite not_in_error_from_unfold, Hp;
    destruct (negb _ && _) eqn:E.
  - rewrite root_unfold, Hp. intros Hs.
    assert (E' : negb (truthy (deref h (StackItem.selected si)))
                 && truthy_str (StackItem.search si) = false)
      by (apply Hstop; now right).
    congruence.
  - apply Hstop in E. split; [exact E | split; [lia | split; [now intros _ | reflexivity]]].
  - destruct (not_in_error_from h p) as [x | ].
    + destruct IH as (Hx & Hd & _). split; [exact Hx | ].
      rewrite (depth_unfold si), Hp. split; [lia | ]. split.
      * intros Heq. lia.
      * intros Hs. apply Hstop in Hs. congruence.
    + now rewrite root_unfold, Hp.
  - apply Hstop in E. split; [exact E | split; [lia | split; [now intros _ | reflexivity]]].
Qed.

(** X14. In every state a session reaches there is a state to display:
    not_in_error finds a state that has a selected span or the empty
    query.  It is the current state exactly when the current state has
    one of the two; otherwise it lies further down the stack and the
    status line starts with Failing. *)
Theorem displayed_state_exists (v : View.t) (h : Heap) (last : option string)
    (forward regex : bool) (cs : list call) (w0 w : World) :
  start v h last forward regex = Ok w0 ->
  run_calls cs w0 = Ok w ->
  exists si,
    not_in_error w = Some si
    /\ (truthy (deref (heap w) (StackItem.selected si)) = true
        \/ StackItem.search si = ""%string)
    /\ (is_not si (current w) = false
        <-> (truthy (deref (heap w) (StackItem.selected (current w))) = true
             \/ StackItem.search (current w) = ""%string)).
Proof.
  intros Hs Hr.
  destruct (start_inv v h last forward regex) as (w0' & Hs' & Hinv).
  rewrite Hs in Hs'. injection Hs' as <-.
  destruct (start_shape _ _ _ _ _ _ Hs) as (Hcur & _).
  pose proof (run_calls_root cs w0 w Hinv Hr) as Hroot.
  rewrite Hcur in Hroot. cbn in Hroot.
  pose proof (not_in_error_from_spec (heap w) (current w)) as Hn.
  unfold not_in_error. destruct (not_in_error_from (heap w) (current w)) as [si | ].
  - exists si. destruct Hn as (Hx & Hd & Hiff). split; [reflexivity | ].
    split; [exact Hx | ]. unfold is_not. rewrite <- Hiff.
    rewrite negb_false_iff. apply Nat.eqb_eq.
  - contradiction.
Qed.

End RootQuery.

Lemma displayed_state_exists_witness :
  exists si,
    ISearchInfo.not_in_error Sessions.world_abz = Some si
    /\ (truthy (deref (ISearchInfo.heap Sessions.world_abz) (StackItem.selected si)) = true
        \/ StackItem.search si = ""%string).
Proof.
  destruct (ISearchInfo.start (BufferHost.view_at 3) ∅ None true false)
    as [w0 | ] eqn:E0; [ | vm_compute in E0; discriminate E0 ].
  assert (Hr : run_calls (host := Sessions.host_ab)
                 [OnChange "ab"; OnChange "abz"] w0 = Ok Sessions.world_abz)
    by (vm_compute in E0; injection E0 as <-; vm_compute; reflexivity).
  destruct (displayed_state_exists (host := Sessions.host_ab)
              (BufferHost.view_at 3) ∅ None true false
              [OnChange "ab"; OnChange "abz"] w0 Sessions.world_abz E0 Hr)
    as (si & Hn & Hx & _).
  exists si. auto.
Defined.

(** ** Growing the query from the buffer *)

Section Growth.
Import ISearchInfo.

Lemma str_append_cons (x : ascii) (a b : string) :
  (String x a ++ b = String x (a ++ b))%string.
Proof. reflexivity. Qed.

Lemma str_append_assoc (a b c : string) :
  ((a ++ b) ++ c = a ++ (b ++ c))%string.
Proof.
  induction a as [| x a IH]; [reflexivity | ].
  now rewrite !str_append_cons, IH.
Qed.

Lemma str_append_empty (a : string) : (a ++ "" = a)%string.
Proof.
  induction a as [| x a IH]; [reflexivity | ].
  now rewrite str_append_cons, IH.
Qed.

Lemma truthy_str_append (a b : string) :
  truthy_str b = true -> truthy_str (a ++ b)%string = true.
Proof. destruct a; [now intros | reflexivity]. Qed.

Lemma truthy_str_len (s : string) : truthy_str s = true -> 0 < str_len s.
Proof. destruct s; [discriminate | unfold str_len; cbn; lia]. Qed.

Context {host : Host}.

Lemma append_one_truthy (w : World) (ch : ascii) : truthy_str (append_one w ch) = true.
Proof. unfold append_one. now destruct (regex w && _). Qed.

(** A reported change with no replay awaited and a query that is not
    empty pushes a state for that query. *)
Lemma on_change_pushes (w : World) (s : string) :
  session_inv w -> in_changes w = 0 -> truthy_str s = true ->
  exists w1,
    on_change s w = Ok w1
    /\ StackItem.search (current w1) = s
    /\ in_changes w1 = 0
    /\ session_inv w1.
Proof.
  intros Hinv Hic Hs. unfold on_change. rewrite Hic. cbn [Z.ltb Z.compare].
  destruct (find_inv w s Hinv) as (w1 & Hf & Hinv1).
  exists w1. split; [exact Hf | ].
  pose proof (chain_wf_head _ (proj1 Hinv)) as Hwf.
  assert (Hgp : exists p, StackItem.get_point (current w) = Ok p)
    by (destruct (get_point_wf _ Hwf) as [[_ H] | (r & _ & _ & H)]; eauto).
  destruct Hgp as [p Hgp].
  rewrite (find_nonempty w s p (truthy_str_len s Hs) Hgp) in Hf.
  injection Hf as <-. read_world. auto.
Qed.

(** The loop appends to the query of the current state. *)
Lemma append_word_grows (rounds : nat) (point limit : Z) (search separators : string)
    (case_sensitive : bool) (w : World) :
  session_inv w -> in_changes w = 0 ->
  StackItem.search (current w) = search -> truthy_str search = true ->
  exists w' rest,
    append_word rounds point limit search separators case_sensitive w = Ok w'
    /\ StackItem.search (current w') = (search ++ rest)%string
    /\ in_changes w' = 0
    /\ session_inv w'.
Proof.
  revert point search w.
  induction rounds as [| rounds IH]; intros point search w Hinv Hic Hcur Hs;
    cbn [append_word].
  - exists w, ""%string. rewrite str_append_empty. auto.
  - destruct ((point <? limit) && is_word_char point separators).
    + match goal with
      | |- context [on_change ?s w] =>
          destruct (on_change_pushes w s Hinv Hic) as (w1 & H1 & Hc1 & Hic1 & Hinv1);
          [apply truthy_str_append, append_one_truthy | ];
          destruct (IH (point + 1) s w1 Hinv1 Hic1 Hc1) as (w' & rest & Hw & Hc' & Hic' & Hinv');
          [apply truthy_str_append, append_one_truthy | ]
      end.
      rewrite H1. cbn [mbind result_bind]. rewrite Hw.
      eexists. eexists. split; [reflexivity | ].
      rewrite Hc', str_append_assoc. auto.
    + exists w, ""%string. rewrite str_append_empty. auto.
Qed.

(** What append_from_cursor does when it does not return at once. *)
Lemma append_from_cursor_shape (w : World) :
  session_inv w -> in_changes w = 0 ->
  (0 <? str_len (StackItem.search (current w)))
  && negb (truthy (deref (heap w) (StackItem.selected (current w)))) = false ->
  growth_point w < size ->
  exists w' rest,
    append_from_cursor w = Ok w'
    /\ StackItem.search (current w')
       = (StackItem.search (current w)
          ++ append_one w (substr (growth_point w)) ++ rest)%string
    /\ input_text w' = StackItem.search (current w')
    /\ in_changes w' = 0
    /\ session_inv w'.
Proof.
  intros Hinv Hic Hgo Hlt. unfold append_from_cursor. rewrite Hgo.
  fold (growth_point w).
  assert (E1 : (size <=? growth_point w) = false) by (apply Z.leb_gt; exact Hlt).
  assert (E2 : (growth_point w <? size) = true) by (apply Z.ltb_lt; exact Hlt).
  rewrite E1, E2.
  match goal with
  | |- context [on_change ?s w] =>
      destruct (on_change_pushes w s Hinv Hic) as (w1 & H1 & Hc1 & Hic1 & Hinv1);
      [apply truthy_str_append, append_one_truthy | ];
      rewrite H1; cbn [mbind result_bind]
  end.
  match goal with
  | |- context [append_word ?n ?p ?l ?s ?sep ?cs w1] =>
      destruct (append_word_grows n p l s sep cs w1 Hinv1 Hic1 Hc1)
        as (w2 & rest & H2 & Hc2 & Hic2 & Hinv2);
      [apply truthy_str_append, append_one_truthy | ];
      rewrite H2; cbn [mbind result_bind]
  end.
  rewrite (replayed_text_is_absorbed_aux w2) by lia.
  exists (set_input_text (StackItem.search (current w2)) w2), rest.
  split; [reflexivity | ]. read_world.
  rewrite Hc2, str_append_assoc.
  split; [reflexivity | ]. split; [reflexivity | ]. split; [exact Hic2 | ].
  revert Hinv2. now apply session_inv_same.
Qed.

(** X15. append_from_cursor returns at once, changing nothing, when the
    query is not empty and the current state has no selected span, and
    when the starting point is at or after the end of the buffer.
    Otherwise, with no replay awaited, it only lengthens the query: the
    query of the state it leaves on top is the old query followed by the
    character at the starting point (escaped in a regex search) and by
    whatever else was taken, and the input line shows that query. *)
Theorem append_from_cursor_grows (w : World) :
  session_inv w -> in_changes w = 0 ->
  ((0 <? str_len (StackItem.search (current w)))
   && negb (truthy (deref (heap w) (StackItem.selected (current w)))) = true
   \/ size <= growth_point w ->
   append_from_cursor w = Ok w)
  /\ ((0 <? str_len (StackItem.search (current w)))
      && negb (truthy (deref (heap w) (StackItem.selected (current w)))) = false ->
      growth_point w < size ->
      exists w' rest,
        append_from_cursor w = Ok w'
        /\ StackItem.search (current w')
           = (StackItem.search (current w)
              ++ append_one w (substr (growth_point w)) ++ rest)%string
        /\ input_text w' = StackItem.search (current w')
        /\ in_changes w' = 0).
Proof.
  intros Hinv Hic. split.
  - intros Hno. unfold append_from_cursor. fold (growth_point w).
    destruct (_ && _) eqn:E; [reflexivity | ].
    destruct Hno as [Hno | Hno]; [discriminate | ].
    apply Z.leb_le in Hno. now rewrite Hno.
  - intros Hgo Hlt.
    destruct (append_from_cursor_shape w Hinv Hic Hgo Hlt)
      as (w' & rest & H1 & H2 & H3 & H4 & _).
    exists w', rest. auto.
Qed.

(** X16. In a regex search, growth that starts on one of the characters
    [{}()[].*+] puts a backslash before it: the query becomes the old
    query, the backslash, that character, and whatever else was taken. *)
Theorem growth_escapes_metacharacters (w : World) :
  session_inv w -> in_changes w = 0 ->
  (0 <? str_len (StackItem.search (current w)))
  && negb (truthy (deref (heap w) (StackItem.selected (current w)))) = false ->
  growth_point w < size ->
  regex w = true ->
  char_in (substr (growth_point w)) "{}()[].*+" = true ->
  exists w' rest,
    append_from_cursor w = Ok w'
    /\ StackItem.search (current w')
       = (StackItem.search (current w)
          ++ String "092" (String (substr (growth_point w)) rest))%string.
Proof.
  intros Hinv Hic Hgo Hlt Hre Hmeta.
  destruct (append_from_cursor_shape w Hinv Hic Hgo Hlt)
    as (w' & rest & H1 & H2 & _).
  exists w', rest. split; [exact H1 | ].
  rewrite H2. unfold append_one. now rewrite Hre, Hmeta.
Qed.

End Growth.

Example world_regex_reached :
  ISearchInfo.start (BufferHost.view_at 1) ∅ None true true
  = Ok MoreSessions.world_regex.
Proof. vm_compute. reflexivity. Qed.

(** Decides the invariants of a concrete session. *)
Ltac concrete_inv :=
  unfold session_inv; vm_compute;
  repeat match goal with
         | |- _ /\ _ => split
         | |- True => exact I
         | |- _ = _ => reflexivity
         | |- _ -> False => discriminate
         end.

Lemma append_from_cursor_grows_witness :
  exists w' rest,
    ISearchInfo.append_from_cursor (host := Sessions.host_FOO) Sessions.world_FOO = Ok w'
    /\ StackItem.search (ISearchInfo.current w') = ("" ++ "F" ++ rest)%string
    /\ ISearchInfo.input_text w' = StackItem.search (ISearchInfo.current w').
Proof.
  destruct (append_from_cursor_grows (host := Sessions.host_FOO) Sessions.world_FOO)
    as [_ H].
  - concrete_inv.
  - reflexivity.
  - destruct H as (w' & rest & H1 & H2 & H3 & _).
    + reflexivity.
    + vm_compute. reflexivity.
    + exists w', rest. auto.
Defined.

Lemma growth_escapes_metacharacters_witness :
  exists w' rest,
    ISearchInfo.append_from_cursor (host := MoreSessions.host_regex)
      MoreSessions.world_regex = Ok w'
    /\ StackItem.search (ISearchInfo.current w')
       = String "092" (String "." rest).
Proof.
  destruct (growth_escapes_metacharacters (host := MoreSessions.host_regex)
              MoreSessions.world_regex) as (w' & rest & H1 & H2).
  - concrete_inv.
  - reflexivity.
  - reflexivity.
  - vm_compute. reflexivity.
  - reflexivity.
  - reflexivity.
  - exists w', rest. auto.
Defined.

(** The example of escaping: growth over the full stop of [a.b] in a
    regex search appends a backslash and the full stop, and the pattern
    matches the text it was taken from. *)
Example regex_growth_example :
  exists w',
    ISearchInfo.append_from_cursor (host := MoreSessions.host_regex)
      MoreSessions.world_regex = Ok w'
    /\ StackItem.search (ISearchInfo.current w') = String "092" ".b"
    /\ StackItem.regions (ISearchInfo.current w') = [Region.mk 1 3].
Proof.
  destruct (ISearchInfo.append_from_cursor (host := MoreSessions.host_regex)
              MoreSessions.world_regex) as [w' | ] eqn:E;
    [ | vm_compute in E; discriminate E ].
  exists w'. split; [reflexivity | ].
  vm_compute in E. injection E as <-. split; reflexivity.
Qed.

(** ** The history is lossless *)

Section Lossless.
Import ISearchInfo.
Context {host : Host}.

Lemma run_calls_app (cs ds : list call) (w : World) :
  run_calls (cs ++ ds) w = (w1 ← run_calls cs w; run_calls ds w1).
Proof.
  revert w. induction cs as [| c cs IH]; intros w; cbn [app run_calls].
  - reflexivity.
  - destruct (run_call c w) as [w1 | e]; cbn [mbind result_bind]; [apply IH | reflexivity].
Qed.

Lemma repeat_snoc {A} (x : A) (n : nat) : repeat x (S n) = repeat x n ++ [x].
Proof. induction n as [| n IH]; [reflexivity | ]. cbn [repeat app] in *. now rewrite <- IH. Qed.

(** Typing queries and popping as often. *)
Lemma type_then_pop (vals : list string) (w : World) :
  session_inv w -> in_changes w = 0 ->
  Forall (fun v => truthy_str v = true) vals ->
  exists w1 w2,
    run_calls (map OnChange vals) w = Ok w1
    /\ run_calls (repeat Pop (List.length vals)) w1 = Ok w2
    /\ current w2 = current w
    /\ in_changes w2 = 0
    /\ (vals <> [] ->
        input_text w2 = StackItem.search (current w)
        /\ forward w2 = StackItem.forward (current w)).
Proof.
  revert w. induction vals as [| v vals IH]; intros w Hinv Hic Hall.
  - exists w, w. cbn [map List.length repeat run_calls].
    split; [reflexivity | ]. split; [reflexivity | ]. split; [reflexivity | ].
    split; [exact Hic | ]. intros H. now contradiction H.
  - apply Forall_cons in Hall as [Hv Hall].
    destruct (on_change_pushes w v Hinv Hic Hv) as (wa & Ha & Hsa & Hica & Hinva).
    assert (Hprev : StackItem.prev (current wa) = Some (current w)).
    { unfold on_change in Ha. rewrite Hic in Ha. cbn [Z.ltb Z.compare] in Ha.
      pose proof (chain_wf_head _ (proj1 Hinv)) as Hwf.
      assert (Hgp : exists p, StackItem.get_point (current w) = Ok p)
        by (destruct (get_point_wf _ Hwf) as [[_ H] | (r & _ & _ & H)]; eauto).
      destruct Hgp as [p Hgp].
      rewrite (find_nonempty w v p (truthy_str_len v Hv) Hgp) in Ha.
      injection Ha as <-. now read_world. }
    destruct (IH wa Hinva Hica Hall) as (w1 & wb & H1 & Hb & Hcb & Hicb & _).
    exists w1.
    assert (Hpop : pop wb
                   = Ok (update (set_forward (StackItem.forward (current w))
                                   (set_input_text (StackItem.search (current w))
                                      (set_current (current w) wb)))))
      by (apply pop_to_prev; [now rewrite Hcb | lia]).
    eexists. split; [ | split].
    + cbn [map run_calls run_call]. rewrite Ha. exact H1.
    + cbn [List.length]. rewrite repeat_snoc, run_calls_app, Hb.
      cbn [mbind result_bind run_calls run_call]. rewrite Hpop. reflexivity.
    + read_world. repeat split; auto.
Qed.

(** X26. The history is lossless: after any number of query changes, none
    to the empty string, as many pops lead back to the state the first of
    them was typed in, with its query in the input line and its
    direction as the direction of the session. *)
Theorem history_is_lossless (vals : list string) (w : World) :
  session_inv w -> in_changes w = 0 ->
  Forall (fun v => truthy_str v = true) vals ->
  vals <> [] ->
  exists w',
    run_calls (map OnChange vals ++ repeat Pop (List.length vals)) w = Ok w'
    /\ current w' = current w
    /\ input_text w' = StackItem.search (current w)
    /\ forward w' = StackItem.forward (current w).
Proof.
  intros Hinv Hic Hall Hne.
  destruct (type_then_pop vals w Hinv Hic Hall) as (w1 & w2 & H1 & H2 & Hc & _ & H3).
  exists w2. rewrite run_calls_app, H1. cbn [mbind result_bind].
  destruct (H3 Hne) as [Ht Hf]. auto.
Qed.

End Lossless.

Lemma history_is_lossless_witness :
  exists w',
    run_calls (host := Sessions.host_ab)
      [OnChange "a"; OnChange "ab"; OnChange "abz"; Pop; Pop; Pop] Sessions.world_FOO
    = Ok w'
    /\ ISearchInfo.current w' = Sessions.root_fwd
    /\ ISearchInfo.input_text w' = ""%string.
Proof.
  destruct (history_is_lossless (host := Sessions.host_ab) ["a"; "ab"; "abz"]%string
              Sessions.world_FOO) as (w' & H & Hc & Ht & _).
  - unfold session_inv; vm_compute;
      repeat match goal with
             | |- _ /\ _ => split
             | |- True => exact I
             | |- _ = _ => reflexivity
             | |- _ -> False => discriminate
             end.
  - reflexivity.
  - repeat constructor.
  - discriminate.
  - exists w'. auto.
Defined.

(** ** The numeric argument *)

(** Unfolds the setters of a view state. *)
Ltac unfold_setters :=
  unfold ViewState.set_this_cmd, ViewState.set_last_cmd,
    ViewState.set_argument_supplied, ViewState.set_argument_value,
    ViewState.set_argument_negative, ViewState.set_entered;
  cbn [ViewState.active_mark ViewState.this_cmd ViewState.last_cmd
       ViewState.argument_supplied ViewState.argument_value
       ViewState.argument_negative ViewState.drag_count ViewState.entered].

Lemma press_is_universal_argument (v : arg_value) (vs : ViewState.t) :
  press v vs = universal_argument v vs.
Proof.
  unfold press, run. cbn [String.eqb Ascii.eqb Bool.eqb negb orb andb fst].
  rewrite !andb_false_r.
  assert (E : forall s, ViewState.set_entered
                (ViewState.entered
                   (universal_argument v
                      (ViewState.set_entered (ViewState.entered s + 1) s)) - 1)
                (universal_argument v
                   (ViewState.set_entered (ViewState.entered s + 1) s))
              = universal_argument v s).
  { intros [am tc lc sup val neg dc en]. unfold universal_argument.
    destruct sup, v; unfold_setters; cbn [negb]; unfold_setters;
      replace (en + 1 - 1) with en by lia; reflexivity. }
  cbn [fst]. apply E.
Qed.

Lemma presses_cons (v : arg_value) (vs : list arg_value) (s : ViewState.t) :
  presses (v :: vs) s = presses vs (universal_argument v s).
Proof. unfold presses. cbn [fold_left]. now rewrite press_is_universal_argument. Qed.

Lemma presses_app (us vs : list arg_value) (s : ViewState.t) :
  presses (us ++ vs) s = presses vs (presses us s).
Proof. unfold presses. apply fold_left_app. Qed.

(** Digits after the argument has been started. *)
Lemma presses_digits (ds : list Z) (s : ViewState.t) :
  ViewState.argument_supplied s = true ->
  presses (map Int ds) s
  = ViewState.set_argument_value
      (fold_left (fun acc d => acc * 10 + d) ds (ViewState.argument_value s)) s.
Proof.
  revert s. induction ds as [| d ds IH]; intros s Hs.
  - now destruct s.
  - cbn [map]. rewrite presses_cons. unfold universal_argument at 1.
    rewrite Hs. cbn [negb]. rewrite IH by (now destruct s).
    now destruct s.
Qed.

(** Digits that start the argument. *)
Lemma presses_first_digits (d : Z) (ds : list Z) (s : ViewState.t) :
  ViewState.argument_supplied s = false ->
  presses (map Int (d :: ds)) s
  = ViewState.set_argument_value (fold_left (fun acc x => acc * 10 + x) ds d)
      (ViewState.set_argument_supplied true s).
Proof.
  intros Hs. cbn [map]. rewrite presses_cons.
  unfold universal_argument. rewrite Hs. cbn [negb].
  rewrite presses_digits by (now destruct s). now destruct s.
Qed.

Lemma decimal_cons (d : Z) (ds : list Z) :
  decimal (d :: ds) = fold_left (fun acc x => acc * 10 + x) ds d.
Proof. unfold decimal. cbn [fold_left]. now rewrite Z.mul_0_l, Z.add_0_l. Qed.

(** X17. Digits typed as a numeric argument write the count in decimal:
    from a state without argument, the presses of d followed by ds leave
    an argument whose value is the number d ds, and get_count returns that
    number, negated if a negative flag was pending. *)
Theorem digits_write_the_count (vs : ViewState.t) (d : Z) (ds : list Z) :
  ViewState.argument_supplied vs = false ->
  let vs' := presses (map Int (d :: ds)) vs in
  ViewState.argument_supplied vs' = true
  /\ ViewState.argument_value vs' = decimal (d :: ds)
  /\ fst (ViewState.get_count false vs')
     = (if ViewState.argument_negative vs then - decimal (d :: ds)
        else decimal (d :: ds)).
Proof.
  intros Hs vs'.
  assert (Hvs : vs' = ViewState.set_argument_value (decimal (d :: ds))
                        (ViewState.set_argument_supplied true vs)).
  { unfold vs'. now rewrite presses_first_digits, decimal_cons. }
  rewrite Hvs. unfold ViewState.get_count.
  destruct vs as [am tc lc sup val neg dc en]. unfold_setters.
  destruct neg; cbn [negb fst]; unfold_setters; repeat split.
Qed.

Lemma digits_write_the_count_witness :
  fst (ViewState.get_count false
         (presses [Int 1; Int 2; Int 0]
            (ViewState.mk false None None false 0 false 0 0))) = 120.
Proof.
  destruct (digits_write_the_count (ViewState.mk false None None false 0 false 0 0)
              1 [2; 0] eq_refl) as (_ & _ & H).
  exact H.
Defined.

(** X18. get_count uses the argument up: with peek the state is left as
    it is and the count is the one the consuming call returns; after the
    consuming call there is no argument and no negative flag, and every
    further call returns 1. *)
Theorem get_count_consumes (vs : ViewState.t) :
  let '(count, vs') := ViewState.get_count false vs in
  ViewState.get_count true vs = (count, vs)
  /\ ViewState.argument_supplied vs' = false
  /\ (ViewState.argument_supplied vs = true -> ViewState.argument_negative vs' = false)
  /\ ViewState.get_count false vs' = (1, vs')
  /\ ViewState.get_count true vs' = (1, vs').
Proof.
  unfold ViewState.get_count.
  destruct vs as [am tc lc [ | ] val [ | ] dc en];
    unfold_setters; cbn [negb]; unfold_setters; repeat split;
    intros H; discriminate H.
Qed.

Lemma get_count_consumes_witness :
  ViewState.get_count true (ViewState.mk false None None true 7 true 0 0)
  = (-7, ViewState.mk false None None true 7 true 0 0)
  /\ ViewState.get_count false
       (snd (ViewState.get_count false (ViewState.mk false None None true 7 true 0 0)))
     = (1, ViewState.mk false None None false 7 false 0 0).
Proof.
  pose proof (get_count_consumes (ViewState.mk false None None true 7 true 0 0)) as H.
  cbn in H. destruct H as (H1 & _ & _ & H2 & _). split; [exact H1 | exact H2].
Defined.

(** X19. The negative argument negates the count whether it is given
    before the digits or after them: from a state without argument, with
    value 0 and no pending flag, both orders make get_count return minus
    the number the digits write. *)
Theorem negative_before_or_after (vs : ViewState.t) (d : Z) (ds : list Z) :
  ViewState.argument_supplied vs = false ->
  ViewState.argument_value vs = 0 ->
  ViewState.argument_negative vs = false ->
  fst (ViewState.get_count false (presses (Negative :: map Int (d :: ds)) vs))
    = - decimal (d :: ds)
  /\ fst (ViewState.get_count false (presses (map Int (d :: ds) ++ [Negative]) vs))
     = - decimal (d :: ds).
Proof.
  intros Hs Hv Hn. rewrite decimal_cons. split.
  - rewrite presses_cons. unfold universal_argument at 1. rewrite Hs. cbn [negb].
    rewrite presses_digits by (now destruct vs).
    unfold ViewState.get_count.
    destruct vs as [am tc lc sup val neg dc en]. cbn in Hs, Hv, Hn. unfold_setters. subst.
    cbn [negb fst fold_left]. now rewrite Z.mul_0_l, Z.add_0_l.
  - rewrite presses_app, presses_first_digits by exact Hs.
    unfold presses. cbn [fold_left]. rewrite press_is_universal_argument.
    unfold universal_argument, ViewState.get_count.
    destruct vs as [am tc lc sup val neg dc en]. cbn in Hs, Hv, Hn. unfold_setters. subst.
    cbn [negb]. unfold_setters. reflexivity.
Qed.

Lemma negative_before_or_after_witness :
  fst (ViewState.get_count false
         (presses [Negative; Int 4; Int 2]
            (ViewState.mk false None None false 0 false 0 0))) = -42
  /\ fst (ViewState.get_count false
            (presses [Int 4; Int 2; Negative]
               (ViewState.mk false None None false 0 false 0 0))) = -42.
Proof.
  exact (negative_before_or_after (ViewState.mk false None None false 0 false 0 0)
           4 [2] eq_refl eq_refl eq_refl).
Defined.

Lemma presses_by_four (k : nat) (s : ViewState.t) :
  ViewState.argument_supplied s = true ->
  presses (repeat ByFour k) s
  = ViewState.set_argument_value (ViewState.argument_value s * 4 ^ Z.of_nat k) s.
Proof.
  revert s. induction k as [| k IH]; intros s Hs.
  - cbn [repeat]. unfold presses. cbn [fold_left].
    rewrite Z.pow_0_r, Z.mul_1_r. now destruct s.
  - cbn [repeat]. rewrite presses_cons. unfold universal_argument at 1.
    rewrite Hs. cbn [negb]. rewrite IH by (now destruct s).
    rewrite Nat2Z.inj_succ, Z.pow_succ_r by lia.
    destruct s. unfold_setters. f_equal. lia.
Qed.

(** X20. The by_four argument multiplies: pressed k+1 times from a state
    without argument it leaves the value 4^(k+1), and pressed after digits
    it multiplies the number they write by 4. *)
Theorem by_four_multiplies (vs : ViewState.t) (k : nat) (d : Z) (ds : list Z) :
  ViewState.argument_supplied vs = false ->
  ViewState.argument_value (presses (repeat ByFour (S k)) vs) = 4 ^ Z.of_nat (S k)
  /\ ViewState.argument_value (presses (map Int (d :: ds) ++ [ByFour]) vs)
     = decimal (d :: ds) * 4.
Proof.
  intros Hs. split.
  - cbn [repeat]. rewrite presses_cons. unfold universal_argument at 1.
    rewrite Hs. cbn [negb]. rewrite presses_by_four by (now destruct vs).
    rewrite Nat2Z.inj_succ, Z.pow_succ_r by lia.
    destruct vs. unfold_setters. lia.
  - rewrite presses_app, presses_first_digits, decimal_cons by exact Hs.
    unfold presses. cbn [fold_left]. rewrite press_is_universal_argument.
    unfold universal_argument. now destruct vs.
Qed.

Lemma by_four_multiplies_witness :
  ViewState.argument_value
    (presses [ByFour; ByFour] (ViewState.mk false None None false 0 false 0 0)) = 16
  /\ ViewState.argument_value
       (presses [Int 3; ByFour] (ViewState.mk false None None false 0 false 0 0)) = 12.
Proof.
  exact (by_four_multiplies (ViewState.mk false None None false 0 false 0 0)
           1 3 [] eq_refl).
Defined.

(** run at the top level, around a body that returns. *)
Lemma run_at_top_level (cmd : string) (unregistered : bool)
    (run_cmd : ViewState.t -> ViewState.t * bool) (vs vs1 : ViewState.t) :
  ViewState.entered vs = 0 ->
  negb (String.eqb cmd "jove_universal_argument") || unregistered = true ->
  run_cmd (ViewState.set_entered 1 (ViewState.set_this_cmd (Some cmd) vs)) = (vs1, true) ->
  ViewState.entered vs1 = 1 ->
  run cmd unregistered run_cmd vs
  = (ViewState.mk (ViewState.active_mark vs1) (ViewState.this_cmd vs1)
       (ViewState.this_cmd vs1) false 0 (ViewState.argument_negative vs1)
       (ViewState.drag_count vs1) 0, true).
Proof.
  intros He Hc Hbody He1. unfold run. rewrite Hc, He.
  change (0 =? 0) with true. cbn [andb].
  change (ViewState.entered (ViewState.set_this_cmd (Some cmd) vs))
    with (ViewState.entered vs).
  rewrite He. change (0 + 1) with 1. rewrite Hbody.
  change (ViewState.entered (ViewState.set_entered (ViewState.entered vs1 - 1) vs1))
    with (ViewState.entered vs1 - 1).
  rewrite He1. change (1 - 1 =? 0) with true. cbn [andb].
  now destruct vs1.
Qed.

(** X21. A command run at the top level ends the numeric argument but not
    its sign.  Take any command but the argument command whose body
    returns and leaves the nesting counter and the negative flag as it
    finds them, as every body does that does not read the count.  After
    it there is no argument and the value is 0; last_cmd is what the body
    left in this_cmd, the command itself when the body does not write
    this_cmd; yet a negative flag given before the command is still set,
    and the digits typed for the next command give a negated count. *)
Theorem negative_survives_a_command (vs : ViewState.t) (cmd : string)
    (unregistered : bool) (run_cmd : ViewState.t -> ViewState.t * bool)
    (d : Z) (ds : list Z) :
  ViewState.argument_supplied vs = false ->
  ViewState.entered vs = 0 ->
  negb (String.eqb cmd "jove_universal_argument") || unregistered = true ->
  (forall s, snd (run_cmd s) = true
             /\ ViewState.entered (fst (run_cmd s)) = ViewState.entered s
             /\ ViewState.argument_negative (fst (run_cmd s))
                = ViewState.argument_negative s) ->
  let after := fst (run cmd unregistered run_cmd (press Negative vs)) in
  ViewState.argument_supplied after = false
  /\ ViewState.argument_value after = 0
  /\ ViewState.last_cmd after = ViewState.this_cmd after
  /\ ((forall s, ViewState.this_cmd (fst (run_cmd s)) = ViewState.this_cmd s) ->
      ViewState.last_cmd after = Some cmd)
  /\ ViewState.argument_negative after = true
  /\ fst (ViewState.get_count false (presses (map Int (d :: ds)) after))
     = - decimal (d :: ds).
Proof.
  intros Hs He Hc Hbody after.
  set (s0 := ViewState.set_entered 1
               (ViewState.set_this_cmd (Some cmd) (universal_argument Negative vs))).
  destruct (Hbody s0) as (Hret & Hent & Hneg).
  destruct (run_cmd s0) as [vs1 ok] eqn:E0. cbn [fst snd] in Hret, Hent, Hneg.
  subst ok.
  assert (Hn0 : ViewState.argument_negative s0 = true)
    by (unfold s0, universal_argument; rewrite Hs; reflexivity).
  assert (Hafter : after
                   = ViewState.mk (ViewState.active_mark vs1) (ViewState.this_cmd vs1)
                       (ViewState.this_cmd vs1) false 0 true
                       (ViewState.drag_count vs1) 0).
  { unfold after. rewrite press_is_universal_argument.
    rewrite (run_at_top_level cmd unregistered run_cmd
               (universal_argument Negative vs) vs1).
    - cbn [fst]. rewrite Hneg, Hn0. reflexivity.
    - unfold universal_argument. rewrite Hs. now destruct vs.
    - exact Hc.
    - exact E0.
    - rewrite Hent. reflexivity. }
  rewrite Hafter. cbn [ViewState.argument_supplied ViewState.argument_value
    ViewState.last_cmd ViewState.this_cmd ViewState.argument_negative].
  split; [reflexivity | ]. split; [reflexivity | ]. split; [reflexivity | ].
  split; [ | split; [reflexivity | ] ].
  - intros Hthis. pose proof (Hthis s0) as Ht. rewrite E0 in Ht. cbn [fst] in Ht.
    rewrite Ht. reflexivity.
  - rewrite presses_first_digits, decimal_cons by reflexivity.
    reflexivity.
Qed.

(** jove_show_scope (lines 566-573) reads the point and writes the status
    line: its body leaves the view state as it is. *)
Lemma negative_survives_a_command_witness :
  fst (ViewState.get_count false
         (presses [Int 5]
            (fst (run "jove_show_scope" false (fun s => (s, true))
                    (press Negative (ViewState.mk false None None false 0 false 0 0))))))
  = -5.
Proof.
  destruct (negative_survives_a_command
              (ViewState.mk false None None false 0 false 0 0)
              "jove_show_scope" false (fun s => (s, true)) 5 [] eq_refl eq_refl eq_refl)
    as (_ & _ & _ & _ & _ & H).
  - intros s. repeat split.
  - exact H.
Defined.

(** X22. A command run from inside another command leaves the
    bookkeeping to the outer one: when [entered] is not 0 and the body
    keeps it, run is the body, and this_cmd, last_cmd and the numeric
    argument are as the body leaves them. *)
Theorem nested_run_is_the_body (cmd : string) (unregistered : bool)
    (run_cmd : ViewState.t -> ViewState.t * bool) (vs : ViewState.t) :
  ViewState.entered vs <> 0 ->
  (forall s, ViewState.entered (fst (run_cmd s)) = ViewState.entered s) ->
  let inner := run_cmd (ViewState.set_entered (ViewState.entered vs + 1) vs) in
  run cmd unregistered run_cmd vs
  = (ViewState.set_entered (ViewState.entered vs) (fst inner), snd inner).
Proof.
  intros He Hkeep inner. unfold run.
  assert (E0 : (ViewState.entered vs =? 0) = false) by (now apply Z.eqb_neq).
  rewrite E0. cbn [andb]. fold inner.
  pose proof (Hkeep (ViewState.set_entered (ViewState.entered vs + 1) vs)) as Hk.
  fold inner in Hk. destruct inner as [vs1 ok]. cbn [fst snd] in *.
  rewrite Hk. cbn [ViewState.entered ViewState.set_entered].
  replace (ViewState.entered vs + 1 - 1) with (ViewState.entered vs) by lia.
  destruct ok; [ | reflexivity ].
  cbn [ViewState.entered ViewState.set_entered]. now rewrite E0.
Qed.

Lemma nested_run_is_the_body_witness :
  run "jove_move_word" false (fun s => (universal_argument (Int 3) s, true))
    (ViewState.mk false None None false 0 false 0 1)
  = (ViewState.mk false None None true 3 false 0 1, true).
Proof.
  rewrite (nested_run_is_the_body "jove_move_word" false
             (fun s => (universal_argument (Int 3) s, true))
             (ViewState.mk false None None false 0 false 0 1)).
  - reflexivity.
  - discriminate.
  - intros [am tc lc [ | ] val neg dc en]; reflexivity.
Defined.

(** ** Panes *)

(** X23. Travelling between panes wraps around: with num groups and the
    focus on one of them, the group that gets the focus is again one of
    them, namely the neighbour below (up) or above (any other direction)
    modulo num. *)
Theorem travel_to_pane_wraps (direction : string) (num active : Z) :
  0 <= active < num ->
  0 <= travel_to_pane direction num active < num
  /\ travel_to_pane direction num active
     = (active + (if String.eqb direction "up" then -1 else 1)) mod num.
Proof.
  intros H. unfold travel_to_pane.
  destruct (String.eqb direction "up").
  - destruct (num <=? active + -1) eqn:E1; [apply Z.leb_le in E1; lia | ].
    destruct (active + -1 <? 0) eqn:E2.
    + apply Z.ltb_lt in E2. split; [lia | ].
      apply Z.mod_unique with (q := -1); lia.
    + apply Z.ltb_ge in E2. split; [lia | ]. rewrite Z.mod_small; lia.
  - destruct (num <=? active + 1) eqn:E1.
    + apply Z.leb_le in E1. split; [lia | ].
      apply Z.mod_unique with (q := 1); lia.
    + apply Z.leb_gt in E1.
      destruct (active + 1 <? 0) eqn:E2; [apply Z.ltb_lt in E2; lia | ].
      split; [lia | ]. rewrite Z.mod_small; lia.
Qed.

Lemma travel_to_pane_wraps_witness :
  0 <= travel_to_pane "up" 3 0 < 3
  /\ travel_to_pane "up" 3 0 = (0 + -1) mod 3.
Proof. exact (travel_to_pane_wraps "up" 3 0 ltac:(lia)). Defined.

(** ** White space around the cursor *)

Lemma blank_slice_char (data : list ascii) (i : nat) (c : ascii) :
  data !! i = Some c ->
  blank_slice data i = true <-> (c = " "%char \/ c = "009"%char).
Proof.
  intros Hc. unfold blank_slice. rewrite Hc. rewrite orb_true_iff.
  now rewrite !Ascii.eqb_eq.
Qed.

(** The first loop stops at the start of the blanks before [col]. *)
Lemma white_space_start_spec (data : list ascii) (col : nat) :
  (white_space_start data col <= col)%nat
  /\ (forall i, (white_space_start data col <= i < col)%nat -> blank_slice data i = true)
  /\ (white_space_start data col = O
      \/ blank_slice data (white_space_start data col - 1) = false).
Proof.
  induction col as [| col IH]; cbn [white_space_start].
  - split; [lia | ]. split; [intros i Hi; lia | now left].
  - destruct (blank_slice data col) eqn:E.
    + destruct IH as (H1 & H2 & H3). split; [lia | ]. split; [ | exact H3].
      intros i Hi. destruct (Nat.eq_dec i col) as [-> | Hne]; [exact E | ].
      apply H2. lia.
    + split; [lia | ]. split; [intros i Hi; lia | ].
      right. now replace (S col - 1)%nat with col by lia.
Qed.

(** The second loop stops at the first column that is not blank, or one
    before the last column. *)
Lemma white_space_end_spec (rounds : nat) (data : list ascii) (limit e : nat) :
  (limit <= rounds + e + 1)%nat ->
  (e <= white_space_end rounds data limit e)%nat
  /\ (forall i, (e <= i < white_space_end rounds data limit e)%nat ->
                blank_slice data i = true /\ (i + 1 < limit)%nat)
  /\ ((limit <= white_space_end rounds data limit e + 1)%nat
      \/ blank_slice data (white_space_end rounds data limit e) = false).
Proof.
  revert e. induction rounds as [| rounds IH]; intros e Hfuel; cbn [white_space_end].
  - split; [lia | ]. split; [intros i Hi; lia | left; lia].
  - destruct (e + 1 <? limit)%nat eqn:E1; cbn [andb].
    + apply Nat.ltb_lt in E1. destruct (blank_slice data e) eqn:E2.
      * destruct (IH (e + 1)%nat ltac:(lia)) as (H1 & H2 & H3).
        split; [lia | ]. split; [ | exact H3].
        intros i Hi. destruct (Nat.eq_dec i e) as [-> | Hne]; [auto | ].
        apply H2. lia.
      * split; [lia | ]. split; [intros i Hi; lia | now right].
    + apply Nat.ltb_ge in E1. split; [lia | ]. split; [intros i Hi; lia | left; lia].
Qed.

(** X24. The span delete_white_space erases lies in the line around the
    column of the cursor and holds blanks and tabs only; on the left it
    reaches the start of the line or a character that is neither, and on
    the right it stops before such a character or one column before the
    end of the line. *)
Theorem white_space_span_spec (data : list ascii) (col : nat) :
  (col <= List.length data)%nat ->
  let '(start, end_) := white_space_span data col in
  (start <= col <= end_)%nat
  /\ (end_ <= List.length data)%nat
  /\ (forall i c, (start <= i < end_)%nat -> data !! i = Some c ->
                  c = " "%char \/ c = "009"%char)
  /\ (start = O
      \/ exists c, data !! (start - 1)%nat = Some c
                   /\ c <> " "%char /\ c <> "009"%char)
  /\ ((List.length data <= end_ + 1)%nat
      \/ exists c, data !! end_ = Some c /\ c <> " "%char /\ c <> "009"%char).
Proof.
  intros Hcol. unfold white_space_span.
  destruct (white_space_start_spec data col) as (S1 & S2 & S3).
  destruct (white_space_end_spec (List.length data) data (List.length data) col
              ltac:(lia)) as (E1 & E2 & E3).
  assert (Hnb : forall i, blank_slice data i = false ->
                  exists c, data !! i = Some c /\ c <> " "%char /\ c <> "009"%char).
  { intros i Hi. unfold blank_slice in Hi.
    destruct (data !! i) as [c | ]; [ | discriminate ].
    exists c. split; [reflexivity | ].
    apply orb_false_iff in Hi as [H1 H2].
    apply Ascii.eqb_neq in H1, H2. auto. }
  split; [lia | ]. split.
  - destruct (Nat.le_gt_cases (white_space_end (List.length data) data
                                 (List.length data) col) col) as [H | H]; [lia | ].
    destruct (E2 (white_space_end (List.length data) data (List.length data) col - 1)%nat
                ltac:(lia)) as [_ H2]. lia.
  - split; [ | split].
    + intros i c Hi Hc. apply (blank_slice_char data i c Hc).
      destruct (Nat.lt_ge_cases i col) as [H | H].
      * apply S2. lia.
      * apply E2. lia.
    + destruct S3 as [S3 | S3]; [now left | right; now apply Hnb].
    + destruct E3 as [E3 | E3]; [now left | right; now apply Hnb].
Qed.

Lemma white_space_span_spec_witness :
  let '(start, end_) := white_space_span (list_ascii_of_string "a   b") 2 in
  (start <= 2 <= end_)%nat
  /\ (end_ <= List.length (list_ascii_of_string "a   b"))%nat
  /\ (forall i c, (start <= i < end_)%nat ->
                  list_ascii_of_string "a   b" !! i = Some c ->
                  c = " "%char \/ c = "009"%char)
  /\ (start = O
      \/ exists c, list_ascii_of_string "a   b" !! (start - 1)%nat = Some c
                   /\ c <> " "%char /\ c <> "009"%char)
  /\ ((List.length (list_ascii_of_string "a   b") <= end_ + 1)%nat
      \/ exists c, list_ascii_of_string "a   b" !! end_ = Some c
                   /\ c <> " "%char /\ c <> "009"%char).
Proof.
  apply (white_space_span_spec (list_ascii_of_string "a   b") 2).
  cbn. lia.
Defined.

(** On [a   b] with the cursor in column 2 the span is columns 1 to 4. *)
Example white_space_span_example :
  white_space_span (list_ascii_of_string "a   b") 2 = (1%nat, 4%nat).
Proof. reflexivity. Qed.

(** X25. The scan to the right never takes the last column: when the
    cursor is before the end of a line and everything from the cursor on
    is blank, the span ends one column before the end of the line, so the
    last blank is not erased. *)
Theorem last_column_is_kept (data : list ascii) (col : nat) :
  (col < List.length data)%nat ->
  (forall i, (col <= i < List.length data)%nat -> blank_slice data i = true) ->
  snd (white_space_span data col) = (List.length data - 1)%nat.
Proof.
  intros Hcol Hblank. unfold white_space_span. cbn [snd].
  destruct (white_space_end_spec (List.length data) data (List.length data) col
              ltac:(lia)) as (E1 & E2 & E3).
  set (e := white_space_end (List.length data) data (List.length data) col) in *.
  assert (He : (e < List.length data)%nat).
  { destruct (Nat.le_gt_cases e col) as [H | H]; [lia | ].
    destruct (E2 (e - 1)%nat ltac:(lia)) as [_ H2]. lia. }
  destruct E3 as [E3 | E3]; [lia | ].
  rewrite Hblank in E3 by lia. discriminate.
Qed.

Lemma last_column_is_kept_witness :
  snd (white_space_span (list_ascii_of_string "ab   ") 2) = 4%nat.
Proof.
  apply (last_column_is_kept (list_ascii_of_string "ab   ") 2).
  - cbn. lia.
  - intros i Hi. cbn in Hi.
    destruct i as [| [| [| [| [| i]]]]]; try lia; reflexivity.
Defined.

Lemma find_closest_sound_witness :
  -1 <= ISearchInfo.find_closest Sessions.regions_ab 4 false < len Sessions.regions_ab
  /\ ISearchInfo.find_closest Sessions.regions_ab 4 false = 1.
Proof.
  destruct (find_closest_sound Sessions.regions_ab 4 false) as (H & _ & _).
  split; [exact H | reflexivity].
Defined.

Lemma cancel_always_reverts_witness :
  View.sel (ISearchInfo.view (ISearchInfo.cancel (host := Sessions.host_ab)
                                Sessions.world_abz)) = [Region.mk 3 3]
  /\ ISearchInfo.last_search (ISearchInfo.cancel (host := Sessions.host_ab)
                                Sessions.world_abz) = Some "abz"%string.
Proof.
  destruct (cancel_always_reverts (host := Sessions.host_ab) Sessions.world_abz)
    as (H1 & _ & _ & _ & _ & H2 & _).
  split; [exact H1 | exact (H2 eq_refl)].
Defined.
